(** * The Compiler orchestrator (lib/Compiler.js)

    A shallow embedding of the [Compiler] class: the one-shot entry point
    [run], the continuous entry point [watch], record persistence
    ([readRecords], [emitRecords]), asset emission ([emitAssets]), the
    compile stage ([compile], [newCompilation]) and child spawning
    ([createChildCompiler]).

    The code is written in continuation-passing style over node-style
    callbacks.  The embedding is in direct style over a small monad: a
    computation threads the program state and yields [Ok] (the callback is
    reached without an error), [Fail] (the callback is reached with an error)
    or [Throws] (a JavaScript exception leaves the call). *)

From Stdlib Require Import ZArith String Ascii List Bool Lia.
From stdpp Require Import base option list gmap strings pretty.

(** ** JavaScript values *)

(** Objects, arrays and Maps live in a store and are named by their position
    in it, so that two references to one object are told apart from two equal
    objects. *)
Abbreviation loc := nat (only parsing).

Inductive Val :=
| VUndefined
| VNull
| VBool (b : bool)
| VNum (n : Z)
| VStr (s : string)
| VRef (l : loc).

(** A stored object: an array has [elems]; every object has named
    properties. *)
Record Cell := {
  elems : option (list Val);
  props : gmap string Val
}.

Definition new_object : Cell := {| elems := None; props := ∅ |}.

Global Instance Val_eq_dec : EqDecision Val.
Proof. solve_decision. Defined.

(** [ToBoolean]: what [if (v)] and [!v] look at.  Numbers are integers here. *)
Definition truthy (v : Val) : bool :=
  match v with
  | VUndefined | VNull => false
  | VBool b => b
  | VNum n => negb (n =? 0)%Z
  | VStr s => negb (String.eqb s "")
  | VRef _ => true
  end.

(** A [string|null] field under [!field]: null and the empty string are falsy. *)
Definition falsy_path (p : option string) : bool :=
  match p with
  | None => true
  | Some s => String.eqb s ""
  end.

Record Error := { err_name : string; err_message : string }.

Global Instance Error_eq_dec : EqDecision Error.
Proof. solve_decision. Defined.

Definition TypeError (msg : string) : Error :=
  {| err_name := "TypeError"; err_message := msg |}.

(** Modelled from the spec: the concurrency-guard error of [run] and [watch]
    (class ConcurrentCompilationError, whose file is not among the sources);
    only its class name is fixed here. *)
Definition ConcurrentCompilationError : Error :=
  {| err_name := "ConcurrentCompilationError"; err_message := "" |}.

Inductive Res (A : Type) :=
| Ok (a : A)
| Fail (e : Error)
| Throws (e : Error).
Arguments Ok {A} a.
Arguments Fail {A} e.
Arguments Throws {A} e.

(** ** Strings *)

(** [s.indexOf(t)]: the first position of [t] in [s], or -1. *)
Definition indexOf (s t : string) : Z :=
  match String.index 0 t s with
  | Some i => Z.of_nat i
  | None => (-1)%Z
  end.

(** The last position at which [t] starts inside [s] when looking from
    position [i] on, counting positions from [i]. *)
Fixpoint last_from (t s : string) (i : nat) : option nat :=
  match s with
  | EmptyString => if String.prefix t s then Some i else None
  | String _ s' =>
      match last_from t s' (S i) with
      | Some j => Some j
      | None => if String.prefix t s then Some i else None
      end
  end.

(** [s.lastIndexOf(t)]. *)
Definition lastIndexOf (s t : string) : Z :=
  match last_from t s 0 with
  | Some i => Z.of_nat i
  | None => (-1)%Z
  end.

(** [s.substr(0, n)] for [n >= 0]. *)
Definition substr0 (s : string) (n : Z) : string :=
  String.substring 0 (Z.to_nat n) s.

Definition backslash : string := String (ascii_of_nat 92) EmptyString.

(** The regular-expression test of [emitAssets] as a condition: [s] holds a
    slash or a backslash. *)
Definition has_separator (s : string) : bool :=
  (0 <=? indexOf s "/")%Z || (0 <=? indexOf s backslash)%Z.

(** ** Assets, sessions, reports *)

Definition Buffer := list ascii.

Inductive Content :=
| Buf (b : Buffer)
| Str (s : string).

(** An asset source: [source()] yields its content; [existsAt] and [emitted]
    are undefined until emission sets them. *)
Record Source := {
  source : Content;
  existsAt : option string;
  emitted : option bool
}.

(** The fields of a Compilation that the compiler reads or assigns.  The
    class itself (lib/Compilation.js) is a collaborator. *)
Module Compilation.
Record t := mk {
  assets : list (string * loc);
  needAdditionalPass : bool;
  fileTimestamps : option loc;
  contextTimestamps : option loc;
  name : option string;
  records : Val;
  compilationDependencies : option loc
}.
End Compilation.

(** Modelled from the spec: the report handed to [done] (lib/Stats.js is not
    among the sources): the finished session plus start and end timestamps,
    both undefined until assigned. *)
Module Stats.
Record t := mk {
  compilation : loc;
  startTime : option Z;
  endTime : option Z
}.
End Stats.

(** [newCompilationParams]: two factories and a fresh dependency set, all
    three opaque objects. *)
Record CompilationParams := {
  normalModuleFactory : loc;
  contextModuleFactory : loc;
  params_compilationDependencies : loc
}.

(** ** The compiler object *)

(** [options]: the constructor's empty object, later filled by the caller;
    a child's options are an object whose prototype is the parent's options
    and whose [output] is layered over the parent's [output]. *)
Inductive Options :=
| RootOptions (o : gmap string Val)
| ChildOptions (parent : Options) (outputOptions : list (string * Val)).

(** [hooks] maps a hook name to the array holding that hook's taps (a
    position in the tap store below); file system adapters, the resolver
    factory and the records are references as well.  The deprecated
    [resolvers] shim, the request shortener and the plugin-compat tap of the
    constructor play no part in the methods embedded here. *)
Record Compiler := {
  hooks : list (string * loc);
  name : option string;
  parentCompilation : option loc;
  outputPath : string;
  outputFileSystem : option loc;
  inputFileSystem : option loc;
  recordsInputPath : option string;
  recordsOutputPath : option string;
  records : Val;
  fileTimestamps : loc;
  contextTimestamps : loc;
  resolverFactory : loc;
  options : Options;
  context : string;
  running : bool
}.

(** What the handlers of a build can see and change: the compiler being run
    ([self], the code's [this]), the object store, the store of Map objects
    (the timestamp tables), the asset sources, the
    sessions created so far, the state of the file systems, the clock read by
    [Date.now()], and a counter naming opaque collaborator objects. *)
Record World (F : Type) := {
  self : Compiler;
  heap : list Cell;
  maps : list (gmap string Z);
  sources : list Source;
  comps : list Compilation.t;
  fs : F;
  clock : Z;
  objects : nat
}.
Arguments self {F} w.
Arguments heap {F} w.
Arguments maps {F} w.
Arguments sources {F} w.
Arguments comps {F} w.
Arguments fs {F} w.
Arguments clock {F} w.
Arguments objects {F} w.

(** ** Hooks *)

Inductive HookArg :=
| ANone
| ACompiler
| ACompilation (c : loc)
| ACompilationParams (c : loc) (p : CompilationParams)
| AParams (p : CompilationParams)
| AFactory (f : loc)
| AStats (s : Stats.t).

(** A handler either returns a value (for an asynchronous tap: calls back
    without an error) or fails. *)
Inductive TapOut :=
| Returns (v : Val)
| Errors (e : Error).

Record Tap (F : Type) := {
  tap_name : string;
  tap_fn : HookArg -> World F -> TapOut * World F
}.
Arguments tap_name {F} t.
Arguments tap_fn {F} t.

(** What the orchestrator itself does, in order. *)
Inductive Event :=
| EvHook (hook : string) (arg : HookArg)
| EvSessionHook (c : loc) (hook : string)
| EvNewCompilation (c : loc)
| EvFinish (c : loc)
| EvSeal (c : loc)
| EvMkdirp (fsys : loc) (path : string)
| EvWriteFile (fsys : loc) (path : string) (data : Content)
| EvStat (fsys : loc) (path : string)
| EvReadFile (fsys : loc) (path : string)
| EvCall (method : string).

(** The whole state: the tap arrays (kept apart from the world, handlers do
    not register taps during a build), the world, and the log of events. *)
Record St (F : Type) := {
  taps : list (list (Tap F));
  world : World F;
  trace : list Event
}.
Arguments taps {F} s.
Arguments world {F} s.
Arguments trace {F} s.

Definition M (F A : Type) := St F -> Res A * St F.

(** ** Collaborators *)

(** The file system adapters, node's [path] and [Buffer], the JSON functions,
    [makePathsRelative], and the session's own methods and hooks are not part
    of the class; they are taken as parameters. *)
Class Collaborators (F : Type) := {
  fs_join : loc -> string -> string -> string;
  fs_mkdirp : loc -> string -> F -> option Error * F;
  fs_writeFile : loc -> string -> Content -> F -> option Error * F;
  fs_stat : loc -> string -> F -> option Error * F;
  fs_readFile : loc -> string -> F -> (Error + Buffer) * F;
  path_dirname : string -> string;
  Buffer_from : string -> Buffer;
  Buffer_toString : Buffer -> string;
  parseJson : string -> nat -> Error + (Val * list Cell);
  JSON_stringify : list Cell -> Val -> string;
  makePathsRelative : string -> string -> string;
  getPath : loc -> string -> World F -> string;
  finish : loc -> World F -> World F;
  seal : loc -> World F -> option Error * World F;
  needAdditionalPass_call : loc -> World F -> Val * World F;
  childCompiler_call : loc -> string -> Z -> World F -> list (string * Tap F)
}.

(** ** Field updates *)

Definition set_running (b : bool) (c : Compiler) : Compiler :=
  {| hooks := hooks c; name := name c; parentCompilation := parentCompilation c;
     outputPath := outputPath c; outputFileSystem := outputFileSystem c;
     inputFileSystem := inputFileSystem c;
     recordsInputPath := recordsInputPath c;
     recordsOutputPath := recordsOutputPath c; records := records c;
     fileTimestamps := fileTimestamps c;
     contextTimestamps := contextTimestamps c;
     resolverFactory := resolverFactory c; options := options c;
     context := context c; running := b |}.

Definition set_records (v : Val) (c : Compiler) : Compiler :=
  {| hooks := hooks c; name := name c; parentCompilation := parentCompilation c;
     outputPath := outputPath c; outputFileSystem := outputFileSystem c;
     inputFileSystem := inputFileSystem c;
     recordsInputPath := recordsInputPath c;
     recordsOutputPath := recordsOutputPath c; records := v;
     fileTimestamps := fileTimestamps c;
     contextTimestamps := contextTimestamps c;
     resolverFactory := resolverFactory c; options := options c;
     context := context c; running := running c |}.

Definition set_timestamps (ft ct : loc) (c : Compiler) : Compiler :=
  {| hooks := hooks c; name := name c; parentCompilation := parentCompilation c;
     outputPath := outputPath c; outputFileSystem := outputFileSystem c;
     inputFileSystem := inputFileSystem c;
     recordsInputPath := recordsInputPath c;
     recordsOutputPath := recordsOutputPath c; records := records c;
     fileTimestamps := ft; contextTimestamps := ct;
     resolverFactory := resolverFactory c; options := options c;
     context := context c; running := running c |}.


Definition set_emitted (b : bool) (s : Source) : Source :=
  {| source := source s; existsAt := existsAt s; emitted := Some b |}.

Definition set_existsAt (p : string) (s : Source) : Source :=
  {| source := source s; existsAt := Some p; emitted := emitted s |}.

Definition set_needAdditionalPass (b : bool) (c : Compilation.t) : Compilation.t :=
  Compilation.mk (Compilation.assets c) b (Compilation.fileTimestamps c)
    (Compilation.contextTimestamps c) (Compilation.name c)
    (Compilation.records c) (Compilation.compilationDependencies c).

Section WorldUpdates.
Context {F : Type}.

Definition set_self (c : Compiler) (w : World F) : World F :=
  {| self := c; heap := heap w; maps := maps w; sources := sources w;
     comps := comps w; fs := fs w; clock := clock w; objects := objects w |}.

Definition set_heap (h : list Cell) (w : World F) : World F :=
  {| self := self w; heap := h; maps := maps w; sources := sources w;
     comps := comps w; fs := fs w; clock := clock w; objects := objects w |}.

Definition set_maps (m : list (gmap string Z)) (w : World F) : World F :=
  {| self := self w; heap := heap w; maps := m; sources := sources w;
     comps := comps w; fs := fs w; clock := clock w; objects := objects w |}.

Definition set_sources (s : list Source) (w : World F) : World F :=
  {| self := self w; heap := heap w; maps := maps w; sources := s;
     comps := comps w; fs := fs w; clock := clock w; objects := objects w |}.

Definition set_comps (cs : list Compilation.t) (w : World F) : World F :=
  {| self := self w; heap := heap w; maps := maps w; sources := sources w;
     comps := cs; fs := fs w; clock := clock w; objects := objects w |}.

Definition set_fs (f : F) (w : World F) : World F :=
  {| self := self w; heap := heap w; maps := maps w; sources := sources w;
     comps := comps w; fs := f; clock := clock w; objects := objects w |}.

Definition set_objects (n : nat) (w : World F) : World F :=
  {| self := self w; heap := heap w; maps := maps w; sources := sources w;
     comps := comps w; fs := fs w; clock := clock w; objects := n |}.

Definition set_world (w : World F) (st : St F) : St F :=
  {| taps := taps st; world := w; trace := trace st |}.

Definition set_taps (ts : list (list (Tap F))) (st : St F) : St F :=
  {| taps := ts; world := world st; trace := trace st |}.

Definition log (e : Event) (st : St F) : St F :=
  {| taps := taps st; world := world st; trace := trace st ++ [e] |}.

(** ** The monad *)

Definition ret {A} (a : A) : M F A := fun st => (Ok a, st).
Definition fail {A} (e : Error) : M F A := fun st => (Fail e, st).
Definition throw {A} (e : Error) : M F A := fun st => (Throws e, st).

(** [m(..., (err, x) => { if (err) return onerr(err); k(x) })]. *)
Definition andThen {A B} (m : M F A) (onerr : Error -> M F B)
    (k : A -> M F B) : M F B :=
  fun st =>
    match m st with
    | (Ok a, st') => k a st'
    | (Fail e, st') => onerr e st'
    | (Throws e, st') => (Throws e, st')
    end.

Definition note (e : Event) : M F unit := fun st => (Ok tt, log e st).

Definition modify (f : World F -> World F) : M F unit :=
  fun st => (Ok tt, set_world (f (world st)) st).

Definition this : M F Compiler := fun st => (Ok (self (world st)), st).

(** [Date.now()]. *)
Definition Date_now : M F Z := fun st => (Ok (clock (world st)), st).

(** A new opaque collaborator object. *)
Definition new_opaque : M F loc :=
  fun st =>
    let w := world st in
    (Ok (objects w), set_world (set_objects (S (objects w)) w) st).

(** A new object in the store. *)
Definition alloc (c : Cell) : M F loc :=
  fun st =>
    let w := world st in
    (Ok (length (heap w)), set_world (set_heap (heap w ++ [c]) w) st).

(** [new Map()]. *)
Definition new_Map : M F loc :=
  fun st =>
    let w := world st in
    (Ok (length (maps w)), set_world (set_maps (maps w ++ [∅]) w) st).
End WorldUpdates.

Declare Scope cps_scope.
Delimit Scope cps_scope with cps.
Notation "x <- m ;; k" := (andThen m fail (fun x => k))
  (at level 100, m at next level, right associativity) : cps_scope.
Notation "x <- m 'on_error' h ;; k" := (andThen m h (fun x => k))
  (at level 100, m at next level, h at next level, right associativity)
  : cps_scope.

(** ** Hook dispatch (tapable) *)

Section Dispatch.
Context {F : Type}.

(** Modelled from the spec: an async-series hook invokes its taps strictly
    one after another; the first failure short-circuits the remaining taps
    and is the hook's failure. *)
Fixpoint series (ts : list (Tap F)) (arg : HookArg) (w : World F)
    : option Error * World F :=
  match ts with
  | [] => (None, w)
  | t :: ts' =>
      match tap_fn t arg w with
      | (Returns _, w') => series ts' arg w'
      | (Errors e, w') => (Some e, w')
      end
  end.

(** Modelled from the spec: a sync-bail hook invokes its taps in order and
    stops at the first tap returning a defined result, which becomes the
    hook's result; later taps are not invoked. *)
Fixpoint bail (ts : list (Tap F)) (arg : HookArg) (w : World F)
    : (Error + Val) * World F :=
  match ts with
  | [] => (inr VUndefined, w)
  | t :: ts' =>
      match tap_fn t arg w with
      | (Returns VUndefined, w') => bail ts' arg w'
      | (Returns v, w') => (inr v, w')
      | (Errors e, w') => (inl e, w')
      end
  end.

(** Modelled from the spec: an async-parallel hook starts all its taps; it
    completes once every tap has completed, and the first failure is the
    hook's failure while the other taps still run to completion.  Handlers
    here run to completion when started, so completion order is
    registration order. *)
Fixpoint parallel (ts : list (Tap F)) (arg : HookArg) (w : World F)
    : option Error * World F :=
  match ts with
  | [] => (None, w)
  | t :: ts' =>
      let '(o, w') := tap_fn t arg w in
      let '(r, w'') := parallel ts' arg w' in
      (match o with Errors e => Some e | Returns _ => r end, w'')
  end.

(** [this.hooks[name]]: the taps of a hook of the compiler being run. *)
Definition hook_of (c : Compiler) (name : string) : option loc :=
  snd <$> List.find (fun p => String.eqb (fst p) name) (hooks c).

Definition hook_taps (name : string) (st : St F) : option (list (Tap F)) :=
  match hook_of (self (world st)) name with
  | Some l => taps st !! l
  | None => None
  end.

Definition no_hook {A} (name : string) : M F A :=
  throw (TypeError ("Cannot read property of undefined: " +:+ name)).

(** [this.hooks[name].callAsync(arg, callback)] on an async-series hook. *)
Definition callAsync (name : string) (arg : HookArg) : M F unit :=
  fun st =>
    match hook_taps name st with
    | None => no_hook name st
    | Some ts =>
        let st1 := log (EvHook name arg) st in
        let '(r, w) := series ts arg (world st1) in
        (match r with None => Ok tt | Some e => Fail e end, set_world w st1)
    end.

(** [callAsync] on the async-parallel hook [make]. *)
Definition callAsyncParallel (name : string) (arg : HookArg) : M F unit :=
  fun st =>
    match hook_taps name st with
    | None => no_hook name st
    | Some ts =>
        let st1 := log (EvHook name arg) st in
        let '(r, w) := parallel ts arg (world st1) in
        (match r with None => Ok tt | Some e => Fail e end, set_world w st1)
    end.

(** [this.hooks[name].call(arg)] on a sync hook: every tap in order, the
    results dropped; a handler that fails throws. *)
Definition call (name : string) (arg : HookArg) : M F unit :=
  fun st =>
    match hook_taps name st with
    | None => no_hook name st
    | Some ts =>
        let st1 := log (EvHook name arg) st in
        let '(r, w) := series ts arg (world st1) in
        (match r with None => Ok tt | Some e => Throws e end, set_world w st1)
    end.

(** [this.hooks[name].call(arg)] on a sync-bail hook. *)
Definition callBail (name : string) (arg : HookArg) : M F Val :=
  fun st =>
    match hook_taps name st with
    | None => no_hook name st
    | Some ts =>
        let st1 := log (EvHook name arg) st in
        let '(r, w) := bail ts arg (world st1) in
        (match r with inr v => Ok v | inl e => Throws e end, set_world w st1)
    end.
End Dispatch.

(** ** The methods of the class *)

Section Model.
Context {F : Type} {X : Collaborators F}.
Local Open Scope cps_scope.

(** *** File system calls *)

(** [this.outputFileSystem] / [this.inputFileSystem] as the receiver of a
    call: a null adapter makes the call throw. *)
Definition adapter (o : option loc) : M F loc :=
  match o with
  | Some a => ret a
  | None => throw (TypeError "Cannot read property of null")
  end.

Definition mkdirp (a : loc) (path : string) : M F unit :=
  fun st =>
    let st1 := log (EvMkdirp a path) st in
    let '(r, f) := fs_mkdirp a path (fs (world st1)) in
    (match r with None => Ok tt | Some e => Fail e end,
     set_world (set_fs f (world st1)) st1).

Definition writeFile (a : loc) (path : string) (data : Content) : M F unit :=
  fun st =>
    let st1 := log (EvWriteFile a path data) st in
    let '(r, f) := fs_writeFile a path data (fs (world st1)) in
    (match r with None => Ok tt | Some e => Fail e end,
     set_world (set_fs f (world st1)) st1).

Definition stat (a : loc) (path : string) : M F unit :=
  fun st =>
    let st1 := log (EvStat a path) st in
    let '(r, f) := fs_stat a path (fs (world st1)) in
    (match r with None => Ok tt | Some e => Fail e end,
     set_world (set_fs f (world st1)) st1).

Definition readFile (a : loc) (path : string) : M F Buffer :=
  fun st =>
    let st1 := log (EvReadFile a path) st in
    let '(r, f) := fs_readFile a path (fs (world st1)) in
    (match r with inr b => Ok b | inl e => Fail e end,
     set_world (set_fs f (world st1)) st1).

(** *** readRecords *)

(** The [try { this.records = parseJson(...) } catch (e) { ... }] block:
    the parsed value is built from new objects placed after the existing
    ones. *)
Definition parse_records (text : string) : M F unit :=
  fun st =>
    let w := world st in
    match parseJson text (length (heap w)) with
    | inl e =>
        (Fail {| err_name := err_name e;
                 err_message := "Cannot parse records: " +:+ err_message e |},
         st)
    | inr (v, cells) =>
        (Ok tt,
         set_world (set_self (set_records v (self w))
                      (set_heap (heap w ++ cells) w)) st)
    end.

Definition readRecords : M F unit :=
  _ <- note (EvCall "readRecords") ;;
  c <- this ;;
  if falsy_path (recordsInputPath c) then
    l <- alloc new_object ;;
    modify (fun w => set_self (set_records (VRef l) (self w)) w)
  else
    let path := default "" (recordsInputPath c) in
    ifs <- adapter (inputFileSystem c) ;;
    _ <- stat ifs path on_error (fun _ => ret tt) ;;
    content <- readFile ifs path ;;
    parse_records (Buffer_toString content).

(** *** emitRecords *)

Definition emitRecords : M F unit :=
  _ <- note (EvCall "emitRecords") ;;
  c <- this ;;
  if falsy_path (recordsOutputPath c) then ret tt
  else
    let path := default "" (recordsOutputPath c) in
    let idx1 := lastIndexOf path "/" in
    let idx2 := lastIndexOf path backslash in
    let recordsOutputPathDirectory :=
      if (idx2 <? idx1)%Z then Some (substr0 path idx1)
      else if (idx1 <? idx2)%Z then Some (substr0 path idx2)
      else None in
    let writeFile_ : M F unit :=
      ofs <- adapter (outputFileSystem c) ;;
      fun st =>
        writeFile ofs path
          (Str (JSON_stringify (heap (world st)) (records c))) st in
    if falsy_path recordsOutputPathDirectory then writeFile_
    else
      ofs <- adapter (outputFileSystem c) ;;
      _ <- mkdirp ofs (default "" recordsOutputPathDirectory) ;;
      writeFile_.

(** *** emitAssets *)

Definition update_source (src : loc) (s : Source) : M F unit :=
  modify (fun w => set_sources (<[src := s]> (sources w)) w).

(** The inner function [writeOut] once its error check has passed. *)
Definition writeOut (ofs : loc) (outputPath targetFile : string) (src : loc)
    : M F unit :=
  fun st =>
    let targetPath := fs_join ofs outputPath targetFile in
    match sources (world st) !! src with
    | None => throw (TypeError "Cannot read property of undefined") st
    | Some s =>
        if bool_decide (existsAt s = Some targetPath) then
          update_source src (set_emitted false s) st
        else
          let content :=
            match source s with
            | Buf b => b
            | Str t => Buffer_from t
            end in
          (_ <- update_source src (set_emitted true (set_existsAt targetPath s)) ;;
           writeFile ofs targetPath (Buf content)) st
    end.

(** The iterator handed to [asyncLib.forEach]: one asset, [file] its name
    and [src] its source. *)
Definition emitFile (ofs : loc) (outputPath : string) (asset : string * loc)
    : M F unit :=
  let '(file, src) := asset in
  let queryStringIdx := indexOf file "?" in
  let targetFile :=
    if (0 <=? queryStringIdx)%Z then substr0 file queryStringIdx else file in
  if has_separator targetFile then
    _ <- mkdirp ofs (fs_join ofs outputPath (path_dirname targetFile)) ;;
    writeOut ofs outputPath targetFile src
  else writeOut ofs outputPath targetFile src.

(** Modelled from the spec: [asyncLib.forEach] fans out over the assets;
    writes of independent assets are not ordered and none is cancelled by a
    sibling's failure, which surfaces as the failure of the whole batch.
    Every item is processed, in key order, and the first failure is kept. *)
Fixpoint forEach {A} (xs : list A) (f : A -> M F unit) : M F unit :=
  match xs with
  | [] => ret tt
  | x :: xs' =>
      fun st =>
        match f x st with
        | (Throws e, st') => (Throws e, st')
        | (Ok _, st') => forEach xs' f st'
        | (Fail e, st') =>
            match forEach xs' f st' with
            | (Throws e', st'') => (Throws e', st'')
            | (_, st'') => (Fail e, st'')
            end
        end
  end.

(** [compilation.assets] of a session. *)
Definition assets_of (compilation : loc) : M F (list (string * loc)) :=
  fun st =>
    match comps (world st) !! compilation with
    | Some k => (Ok (Compilation.assets k), st)
    | None => throw (TypeError "Cannot read property of undefined") st
    end.

Definition emitAssets (compilation : loc) : M F unit :=
  _ <- note (EvCall "emitAssets") ;;
  _ <- callAsync "emit" (ACompilation compilation) ;;
  c <- this ;;
  outputPath <- (fun st => (Ok (getPath compilation (outputPath c) (world st)), st)) ;;
  ofs <- adapter (outputFileSystem c) ;;
  _ <- mkdirp ofs outputPath ;;
  assets <- assets_of compilation ;;
  _ <- forEach assets (emitFile ofs outputPath) ;;
  callAsync "afterEmit" (ACompilation compilation).

(** *** The compile stage *)

Definition createNormalModuleFactory : M F loc :=
  normalModuleFactory <- new_opaque ;;
  _ <- call "normalModuleFactory" (AFactory normalModuleFactory) ;;
  ret normalModuleFactory.

Definition createContextModuleFactory : M F loc :=
  contextModuleFactory <- new_opaque ;;
  _ <- call "contextModuleFactory" (AFactory contextModuleFactory) ;;
  ret contextModuleFactory.

Definition newCompilationParams : M F CompilationParams :=
  nmf <- createNormalModuleFactory ;;
  cmf <- createContextModuleFactory ;;
  deps <- new_opaque ;;
  ret {| normalModuleFactory := nmf; contextModuleFactory := cmf;
         params_compilationDependencies := deps |}.

(** Modelled from the spec: [new Compilation(this)] (lib/Compilation.js is
    not among the sources) creates a fresh session with no produced assets
    and the pass-continuation flag unset. *)
Definition new_Compilation : Compilation.t :=
  Compilation.mk [] false None None None VUndefined None.

Definition createCompilation : M F loc :=
  fun st =>
    let w := world st in
    let compilation := length (comps w) in
    (Ok compilation,
     log (EvNewCompilation compilation)
       (set_world (set_comps (comps w ++ [new_Compilation]) w) st)).

Definition update_compilation (compilation : loc)
    (f : Compilation.t -> Compilation.t) : M F unit :=
  modify (fun w => set_comps (alter f compilation (comps w)) w).

Definition newCompilation (params : CompilationParams) : M F loc :=
  compilation <- createCompilation ;;
  c <- this ;;
  _ <- update_compilation compilation (fun k =>
         Compilation.mk (Compilation.assets k)
           (Compilation.needAdditionalPass k)
           (Some (fileTimestamps c)) (Some (contextTimestamps c))
           (name c) (records c)
           (Some (params_compilationDependencies params))) ;;
  _ <- call "thisCompilation" (ACompilationParams compilation params) ;;
  _ <- call "compilation" (ACompilationParams compilation params) ;;
  ret compilation.

(** [compilation.finish()] and [compilation.seal(callback)]. *)
Definition finish_session (compilation : loc) : M F unit :=
  fun st =>
    let st1 := log (EvFinish compilation) st in
    (Ok tt, set_world (finish compilation (world st1)) st1).

Definition seal_session (compilation : loc) : M F unit :=
  fun st =>
    let st1 := log (EvSeal compilation) st in
    let '(r, w) := seal compilation (world st1) in
    (match r with None => Ok tt | Some e => Fail e end, set_world w st1).

Definition compile : M F loc :=
  _ <- note (EvCall "compile") ;;
  params <- newCompilationParams ;;
  _ <- callAsync "beforeCompile" (AParams params) ;;
  _ <- call "compile" (AParams params) ;;
  compilation <- newCompilation params ;;
  _ <- callAsyncParallel "make" (ACompilation compilation) ;;
  _ <- finish_session compilation ;;
  _ <- seal_session compilation ;;
  _ <- callAsync "afterCompile" (ACompilation compilation) ;;
  ret compilation.

(** *** run *)

(** A build either reaches its callback, or throws, within the passes the
    fuel allows; [None] when the additional-pass loop outlives the fuel. *)
Definition K := St F -> option (Res Stats.t * St F).

Definition done_ (m : M F Stats.t) : K := fun st => Some (m st).

(** [m(..., (err, x) => { if (err) return onerr(err); k(x) })] where the
    continuation may loop. *)
Definition thenK {A} (m : M F A) (onerr : Error -> M F Stats.t)
    (k : A -> K) : K :=
  fun st =>
    match m st with
    | (Ok a, st') => k a st'
    | (Fail e, st') => Some (onerr e st')
    | (Throws e, st') => Some (Throws e, st')
    end.

(** The closure [finalCallback]: [this.running = false], then the caller's
    callback. *)
Definition finalCallback (r : Res Stats.t) : M F Stats.t :=
  fun st =>
    let w := world st in
    (r, set_world (set_self (set_running false (self w)) w) st).

Definition finalCallback_err (err : Error) : M F Stats.t :=
  finalCallback (Fail err).

(** [new Stats(compilation)] followed by the two timestamp assignments. *)
Definition new_Stats (compilation : loc) (startTime : Z) : M F Stats.t :=
  endTime <- Date_now ;;
  ret (Stats.mk compilation (Some startTime) (Some endTime)).

(** [compilation.hooks.needAdditionalPass.call()]. *)
Definition needAdditionalPass_hook (compilation : loc) : M F Val :=
  fun st =>
    let st1 := log (EvSessionHook compilation "needAdditionalPass") st in
    let '(v, w) := needAdditionalPass_call compilation (world st1) in
    (Ok v, set_world w st1).

(** The closure [onCompiled(err, compilation)], with [again] standing for
    its own call [this.compile(onCompiled)]. *)
Definition onCompiled_step (again : K) (startTime : Z) (r : Res loc) : K :=
  match r with
  | Throws e => fun st => Some (Throws e, st)
  | Fail err => done_ (finalCallback (Fail err))
  | Ok compilation =>
      thenK (callBail "shouldEmit" (ACompilation compilation)) throw (fun v =>
      if bool_decide (v = VBool false) then
        thenK (new_Stats compilation startTime) throw (fun stats =>
        thenK (callAsync "done" (AStats stats)) finalCallback_err (fun _ =>
        done_ (finalCallback (Ok stats))))
      else
        thenK (emitAssets compilation) finalCallback_err (fun _ =>
        thenK (needAdditionalPass_hook compilation) throw (fun more =>
        if truthy more then
          thenK (update_compilation compilation (set_needAdditionalPass true))
            throw (fun _ =>
          thenK (new_Stats compilation startTime) throw (fun stats =>
          thenK (callAsync "done" (AStats stats)) finalCallback_err (fun _ =>
          thenK (callAsync "additionalPass" ANone) finalCallback_err (fun _ =>
          again))))
        else
          thenK emitRecords finalCallback_err (fun _ =>
          thenK (new_Stats compilation startTime) throw (fun stats =>
          thenK (callAsync "done" (AStats stats)) finalCallback_err (fun _ =>
          done_ (finalCallback (Ok stats))))))))
  end.

(** [onCompiled]: each [this.compile(onCompiled)] inside it spends one unit
    of fuel. *)
Fixpoint onCompiled (fuel : nat) (startTime : Z) (r : Res loc) {struct fuel}
    : K :=
  onCompiled_step
    (match fuel with
     | O => fun _ => None
     | S fuel' =>
         fun st => let '(r', st') := compile st in
                   onCompiled fuel' startTime r' st'
     end) startTime r.

(** The statements of [run] before its first hook call: the start time is
    taken and [running] is set. *)
Definition run_begin (st : St F) : Z * St F :=
  let w := world st in
  (clock w, set_world (set_self (set_running true (self w)) w) st).

(** The stage sequence of [run] from [beforeRun] on. *)
Definition run_stages (fuel : nat) (startTime : Z) : K :=
  thenK (callAsync "beforeRun" ACompiler) finalCallback_err (fun _ =>
  thenK (callAsync "run" ACompiler) finalCallback_err (fun _ =>
  thenK readRecords finalCallback_err (fun _ =>
  fun st => let '(r, st') := compile st in onCompiled fuel startTime r st'))).

Definition run (fuel : nat) : K :=
  fun st =>
    if running (self (world st)) then Some (Fail ConcurrentCompilationError, st)
    else
      let '(startTime, st1) := run_begin st in
      run_stages fuel startTime st1.

(** *** watch *)

(** The statements of [watch] before [new Watching(...)]. *)
Definition watch_begin : M F unit :=
  _ <- modify (fun w => set_self (set_running true (self w)) w) ;;
  ft <- new_Map ;;
  ct <- new_Map ;;
  modify (fun w => set_self (set_timestamps ft ct (self w)) w).

(** [watch]: the handle is an opaque object; what the Watching constructor
    (lib/Watching.js) goes on to do is not part of this class. *)
Definition watch : M F loc :=
  fun st =>
    if running (self (world st)) then (Fail ConcurrentCompilationError, st)
    else
      (_ <- watch_begin ;;
       _ <- note (EvCall "new Watching") ;;
       new_opaque) st.

(** *** Property access on record values

    Own properties only: inherited members, [length], and names that are
    themselves array indices are not modelled.  The file is in strict
    mode, so creating a property on a primitive throws. *)

Definition cell_at (l : loc) : M F Cell :=
  fun st =>
    match heap (world st) !! l with
    | Some cell => (Ok cell, st)
    | None => throw (TypeError "dangling reference") st
    end.





(** *** The constructor *)

Definition hook_names : list string :=
  ["shouldEmit"; "done"; "additionalPass"; "beforeRun"; "run"; "emit";
   "afterEmit"; "thisCompilation"; "compilation"; "normalModuleFactory";
   "contextModuleFactory"; "beforeCompile"; "compile"; "make";
   "afterCompile"; "watchRun"; "failed"; "invalid"; "watchClose";
   "environment"; "afterEnvironment"; "afterPlugins"; "afterResolvers";
   "entryOption"].

(** [new Compiler(context)]: every hook gets an empty tap array of its own;
    the file system adapters are left null for the caller to install. *)
Definition new_Compiler (context : string) : M F Compiler :=
  fun st =>
    let first := length (taps st) in
    let n := length hook_names in
    (r <- alloc new_object ;;
     ft <- new_Map ;;
     ct <- new_Map ;;
     rf <- new_opaque ;;
     ret {| hooks := zip hook_names (seq first n);
            name := None; parentCompilation := None; outputPath := "";
            outputFileSystem := None; inputFileSystem := None;
            recordsInputPath := None; recordsOutputPath := None;
            records := VRef r; fileTimestamps := ft;
            contextTimestamps := ct; resolverFactory := rf;
            options := RootOptions ∅; context := context;
            running := false |})
      (set_taps (taps st ++ replicate n []) st).

(** *** createChildCompiler *)

(** Modelled from the spec: registering a tap on a hook appends it to the
    hook's ordered sequence of taps; the array is changed in place. *)
Definition tap (c : Compiler) (reg : string * Tap F) : M F unit :=
  fun st =>
    match hook_of c (fst reg) with
    | None => no_hook (fst reg) st
    | Some l =>
        (Ok tt, set_taps (alter (fun ts => ts ++ [snd reg]) l (taps st)) st)
    end.

(** A [for ... of] loop whose body may throw. *)
Fixpoint each {A} (xs : list A) (f : A -> M F unit) : M F unit :=
  match xs with
  | [] => ret tt
  | x :: xs' => _ <- f x ;; each xs' f
  end.









End Model.

(** * Vocabulary of the properties *)

Section Vocabulary.
Context {F : Type} {X : Collaborators F}.

(** The callback has not been reached, or the compiler is idle. *)
Definition settled (x : option (Res Stats.t * St F)) : Prop :=
  match x with
  | Some (Ok _, st') | Some (Fail _, st') =>
      running (self (world st')) = false
  | _ => True
  end.

(** The error handed on by the [catch] block of [readRecords]. *)
Definition cannot_parse (e : Error) : Error :=
  {| err_name := err_name e;
     err_message := "Cannot parse records: " +:+ err_message e |}.

(** [readRecords] finds nothing to read: no input path is configured, or the
    configured path fails [stat]. *)
Definition nothing_to_read (st : St F) : Prop :=
  let c := self (world st) in
  falsy_path (recordsInputPath c) = true \/
  exists a, inputFileSystem c = Some a /\
    is_Some (fst (fs_stat a (default "" (recordsInputPath c)) (fs (world st)))).

(** The log only grows. *)
Definition extends (st st' : St F) : Prop :=
  exists evs, trace st' = trace st ++ evs.

(** [compilation.needAdditionalPass = true]. *)
Definition marked (compilation : loc) (st : St F) : St F :=
  set_world
    (set_comps (alter (set_needAdditionalPass true) compilation
                  (comps (world st))) (world st)) st.

(** The name of an asset without its query string: everything before the
    first question mark. *)
Fixpoint before_query (s : string) : string :=
  match s with
  | EmptyString => EmptyString
  | String c s' =>
      if Ascii.eqb c "?" then EmptyString else String c (before_query s')
  end.

(** [targetFile] as [emitFile] computes it with [indexOf] and [substr]. *)
Definition targetFile_of (file : string) : string :=
  if (0 <=? indexOf file "?")%Z then substr0 file (indexOf file "?") else file.




(** No two hooks of a compiler share a tap array. *)
Definition separate_hooks (c : Compiler) : Prop :=
  forall n m l, hook_of c n = Some l -> hook_of c m = Some l -> n = m.

(** Every tap array of a compiler lies below [bound] in the store. *)
Definition hooks_below (bound : nat) (c : Compiler) : Prop :=
  forall n l, hook_of c n = Some l -> l < bound.



(** A computation that leaves the tap arrays, the log and the compiler
    object alone. *)
Definition store_only {A} (m : M F A) : Prop :=
  forall st r st',
    m st = (r, st') ->
    taps st' = taps st /\ trace st' = trace st /\
    self (world st') = self (world st).


End Vocabulary.

(** * The methods around the build *)

(** What these methods use besides the collaborators above: the optional
    [purge] method of a file system adapter, and the chunk lists of the entry
    points of a session,
    [Array.from(compilation.entrypoints.values(), ep => ep.chunks)]. *)
Class Periphery (F : Type) := {
  fs_purge : loc -> option (F -> F);
  entrypoint_chunks : loc -> World F -> list (list loc)
}.

(** The [children] arrays of the sessions, kept in a table of their own:
    the entry of a session is its array, absent while the array is empty. *)
Definition Children := gmap nat (list loc).

Definition set_assets (a : list (string * loc)) (c : Compilation.t)
    : Compilation.t :=
  Compilation.mk a (Compilation.needAdditionalPass c)
    (Compilation.fileTimestamps c) (Compilation.contextTimestamps c)
    (Compilation.name c) (Compilation.records c)
    (Compilation.compilationDependencies c).

(** [assets[name]] and [assets[name] = src] on an asset mapping: own string
    keys in insertion order, an existing key keeps its place.  Names that
    are array indices, which [Object.keys] lists first, are not modelled. *)
Definition asset (name : string) (assets : list (string * loc)) : option loc :=
  snd <$> List.find (fun p => String.eqb (fst p) name) assets.

Fixpoint assign (name : string) (src : loc) (assets : list (string * loc))
    : list (string * loc) :=
  match assets with
  | [] => [(name, src)]
  | p :: assets' =>
      if String.eqb (fst p) name then (name, src) :: assets'
      else p :: assign name src assets'
  end.

Section Around.
Context {F : Type} {X : Collaborators F} {Y : Periphery F}.
Local Open Scope cps_scope.

(** [isChild], on the compiler it is called on. *)
Definition isChild (c : Compiler) : bool :=
  match parentCompilation c with
  | Some _ => true
  | None => false
  end.


(** One turn of the loop of [runAsChild]:
    [this.parentCompilation.assets[name] = compilation.assets[name]].  The
    names are the keys of [compilation.assets], so the source is found. *)
Definition copy_asset (parent compilation : loc) (name : string) : M F unit :=
  assets <- assets_of compilation ;;
  match asset name assets with
  | Some src =>
      update_compilation parent (fun k =>
        set_assets (assign name src (Compilation.assets k)) k)
  | None => ret tt
  end.

(** [runAsChild]: the callback receives the entry chunks and the session;
    the table of [children] arrays is handed on with them.  Reading
    [this.parentCompilation.children] throws when there is no parent
    session (a parent that is not in the store is a dangling reference). *)
Definition runAsChild (children : Children)
    : M F (list loc * loc * Children) :=
  compilation <- compile ;;
  c <- this ;;
  match parentCompilation c with
  | None => throw (TypeError "Cannot read property of undefined")
  | Some parent =>
      _ <- assets_of parent ;;
      let children' :=
        <[parent := default [] (children !! parent) ++ [compilation]]>
          children in
      assets <- assets_of compilation ;;
      _ <- each (map fst assets) (copy_asset parent compilation) ;;
      entries <- (fun st =>
        (Ok (fold_left (fun array chunks => array ++ chunks)
               (entrypoint_chunks compilation (world st)) []), st)) ;;
      ret (entries, compilation, children')
  end.
End Around.

(** ** More vocabulary *)

(** The calls of the output file system among the events. *)
Definition is_output_call (e : Event) : bool :=
  match e with
  | EvMkdirp _ _ | EvWriteFile _ _ _ => true
  | _ => false
  end.

(** The directory that [emitFile] creates for a target file, if any. *)
Definition directory_call {F} {X : Collaborators F} (ofs : loc)
    (outputPath targetFile : string) : list Event :=
  if has_separator targetFile
  then [EvMkdirp ofs (fs_join ofs outputPath (path_dirname targetFile))]
  else [].

(** What a computation adds to the log: events that all satisfy [P]. *)
Definition logs {F A} (P : Event -> Prop) (m : M F A) : Prop :=
  forall st r st',
    m st = (r, st') -> exists evs, trace st' = trace st ++ evs /\ Forall P evs.

(** No condition on the events. *)
Definition any_event (_ : Event) : Prop := True.

(** A computation that changes nothing of the world but the object store,
    which it does not shrink. *)
Definition heap_only {F A} (m : M F A) : Prop :=
  forall st r st',
    m st = (r, st') ->
    maps (world st') = maps (world st) /\
    sources (world st') = sources (world st) /\
    comps (world st') = comps (world st) /\
    fs (world st') = fs (world st) /\
    clock (world st') = clock (world st) /\
    objects (world st') = objects (world st) /\
    length (heap (world st)) <= length (heap (world st')).

(** The parent's asset mapping after the loop of [runAsChild] has gone
    through [names], reading from the child's mapping [from]. *)
Definition copied (from into : list (string * loc)) (names : list string)
    : list (string * loc) :=
  fold_left
    (fun acc name =>
       match asset name from with
       | Some src => assign name src acc
       | None => acc
       end) names into.

(** An event other than the construction of a session. *)
Definition no_session (e : Event) : Prop :=
  forall c, e <> EvNewCompilation c.

(** A computation that never calls back with an error. *)
Definition never_fails {F A} (m : M F A) : Prop :=
  forall st e st', m st <> (Fail e, st').

(** A handler that does not assign [running] of the compiler being run. *)
Definition quiet {F} (t : Tap F) : Prop :=
  forall arg w, running (self (snd (tap_fn t arg w))) = running (self w).

(** A state all of whose taps are quiet. *)
Definition polite {F} (st : St F) : Prop := Forall (Forall quiet) (taps st).

(** The session's own methods and hook do not assign [running] either. *)
Definition quiet_session {F} {X : Collaborators F} : Prop :=
  (forall c w, running (self (finish c w)) = running (self w)) /\
  (forall c w, running (self (snd (seal c w))) = running (self w)) /\
  (forall c w,
     running (self (snd (needAdditionalPass_call c w))) = running (self w)).

(** A computation that, with quiet taps, leaves the tap arrays and
    [running] as they are. *)
Definition keeps_running {F A} (m : M F A) : Prop :=
  forall st r st',
    polite st -> m st = (r, st') ->
    taps st' = taps st /\
    running (self (world st')) = running (self (world st)).

(** A state with the tap arrays and the [running] flag of [st0]. *)
Definition same_lock {F} (st0 st : St F) : Prop :=
  taps st = taps st0 /\
  running (self (world st)) = running (self (world st0)).

(** ** A concrete world to run the model on *)

(** An in-memory file system: the files written so far, and the paths on
    which [mkdirp] and [writeFile] fail. *)
Record MemFs := {
  files : list (string * Content);
  refused : list string
}.

Definition EACCES : Error := {| err_name := "Error"; err_message := "EACCES" |}.
Definition ENOENT : Error := {| err_name := "Error"; err_message := "ENOENT" |}.
Definition SyntaxError : Error :=
  {| err_name := "SyntaxError"; err_message := "Unexpected token" |}.

Definition mem_lookup (p : string) (f : MemFs) : option Content :=
  snd <$> List.find (fun e => String.eqb (fst e) p) (files f).

Definition mem_mkdirp (p : string) (f : MemFs) : option Error * MemFs :=
  if bool_decide (p ∈ refused f) then (Some EACCES, f) else (None, f).

Definition mem_writeFile (p : string) (d : Content) (f : MemFs)
    : option Error * MemFs :=
  if bool_decide (p ∈ refused f) then (Some EACCES, f)
  else (None, {| files := (p, d) :: files f; refused := refused f |}).

Definition mem_stat (p : string) (f : MemFs) : option Error * MemFs :=
  match mem_lookup p f with
  | Some _ => (None, f)
  | None => (Some ENOENT, f)
  end.

Definition mem_readFile (p : string) (f : MemFs) : (Error + Buffer) * MemFs :=
  match mem_lookup p f with
  | Some (Buf b) => (inr b, f)
  | Some (Str s) => (inr (list_ascii_of_string s), f)
  | None => (inl ENOENT, f)
  end.

Definition mem_dirname (p : string) : string :=
  if (0 <? lastIndexOf p "/")%Z then substr0 p (lastIndexOf p "/") else ".".

(** Only the empty object is understood by this parser. *)
Definition mem_parseJson (text : string) (next : nat)
    : Error + (Val * list Cell) :=
  if String.eqb text "{}" then inr (VRef next, [new_object])
  else inl SyntaxError.

Definition mem_stringify (h : list Cell) (v : Val) : string :=
  match v with
  | VRef l =>
      match h !! l with
      | Some cell =>
          if bool_decide (elems cell = None /\ props cell = ∅) then "{}"
          else "{...}"
      | None => "undefined"
      end
  | _ => "null"
  end.

(** The first [passes] sessions ask for an additional pass. *)
Definition mem_collaborators (passes : nat) : Collaborators MemFs :=
  {| fs_join := fun _ a b => a +:+ "/" +:+ b;
     fs_mkdirp := fun _ => mem_mkdirp;
     fs_writeFile := fun _ => mem_writeFile;
     fs_stat := fun _ => mem_stat;
     fs_readFile := fun _ => mem_readFile;
     path_dirname := mem_dirname;
     Buffer_from := list_ascii_of_string;
     Buffer_toString := string_of_list_ascii;
     parseJson := mem_parseJson;
     JSON_stringify := mem_stringify;
     makePathsRelative := fun _ n => n;
     getPath := fun _ p _ => p;
     finish := fun _ w => w;
     seal := fun _ w => (None, w);
     needAdditionalPass_call := fun c w =>
       (if c <? passes then VBool true else VUndefined, w);
     childCompiler_call := fun _ _ _ _ => [] |}.

(** The empty program state in which the first compiler is constructed. *)
Definition fresh_world (f : MemFs) : World MemFs :=
  {| self := {| hooks := []; name := None; parentCompilation := None;
                outputPath := ""; outputFileSystem := None;
                inputFileSystem := None; recordsInputPath := None;
                recordsOutputPath := None; records := VUndefined;
                fileTimestamps := 0; contextTimestamps := 0;
                resolverFactory := 0; options := RootOptions ∅;
                context := ""; running := false |};
     heap := []; maps := []; sources := []; comps := []; fs := f;
     clock := 1000; objects := 0 |}.

(** What [webpack()] does to a new compiler: adapters installed, output to
    [/dist], the records paths of the configuration. *)
Definition install (rin rout : option string) (c : Compiler) : Compiler :=
  {| hooks := hooks c; name := name c; parentCompilation := parentCompilation c;
     outputPath := "/dist"; outputFileSystem := Some 1;
     inputFileSystem := Some 0;
     recordsInputPath := rin; recordsOutputPath := rout;
     records := records c; fileTimestamps := fileTimestamps c;
     contextTimestamps := contextTimestamps c;
     resolverFactory := resolverFactory c; options := options c;
     context := context c; running := running c |}.

(** A compiler as [webpack()] hands it over. *)
Definition mem_state (f : MemFs) (rin rout : option string) : St MemFs :=
  let st0 := {| taps := []; world := fresh_world f; trace := [] |} in
  match @new_Compiler MemFs "/project" st0 with
  | (Ok c, st1) => set_world (set_self (install rin rout c) (world st1)) st1
  | (_, st1) => st1
  end.

(** Register a tap on a hook of the compiler of a state, before a build. *)
Definition with_tap (name : string) (t : Tap MemFs) (st : St MemFs) : St MemFs :=
  snd (tap (self (world st)) (name, t) st).

(** A handler that advances the clock and returns [v]. *)
Definition returning (n : string) (v : Val) : Tap MemFs :=
  {| tap_name := n;
     tap_fn := fun _ w =>
       (Returns v,
        {| self := self w; heap := heap w; maps := maps w;
           sources := sources w; comps := comps w; fs := fs w;
           clock := clock w + 1; objects := objects w |}) |}.

Definition failing (n : string) (e : Error) : Tap MemFs :=
  {| tap_name := n; tap_fn := fun _ w => (Errors e, w) |}.

(** A [make] handler producing the given assets, each with a new source. *)
Definition producing (n : string) (out : list (string * Content)) : Tap MemFs :=
  {| tap_name := n;
     tap_fn := fun arg w =>
       match arg with
       | ACompilation c =>
           let first := length (sources w) in
           let srcs := map (fun p => {| source := snd p; existsAt := None;
                                        emitted := None |}) out in
           let names := zip (map fst out) (seq first (length out)) in
           (Returns VUndefined,
            set_comps
              (alter (fun k =>
                 Compilation.mk (Compilation.assets k ++ names)
                   (Compilation.needAdditionalPass k)
                   (Compilation.fileTimestamps k)
                   (Compilation.contextTimestamps k) (Compilation.name k)
                   (Compilation.records k)
                   (Compilation.compilationDependencies k)) c (comps w))
              (set_sources (sources w ++ srcs) w))
       | _ => (Returns VUndefined, w)
       end |}.

(** The timestamp tables of the compiler being run, as the Maps they refer
    to. *)
Definition file_table {F} (w : World F) : option (gmap string Z) :=
  maps w !! fileTimestamps (self w).

Definition context_table {F} (w : World F) : option (gmap string Z) :=
  maps w !! contextTimestamps (self w).

(** [this.running = false] at the end of an attempt. *)
Definition idle {F} (st : St F) : St F :=
  set_world (set_self (set_running false (self (world st))) (world st)) st.

(** An outcome in which the caller's callback has been reached. *)
Definition fired {A} (r : Res A) : Prop :=
  match r with
  | Throws _ => False
  | _ => True
  end.

(** A compiler in the middle of a build that has seen two inputs. *)
Definition seen_files : gmap string Z := {[ "/project/src/index.js" := 1700%Z ]}.
Definition seen_contexts : gmap string Z := {[ "/project/src" := 1600%Z ]}.

Definition no_files : MemFs := {| files := []; refused := [] |}.

Definition seen_state : St MemFs :=
  let st := mem_state no_files None None in
  set_world (set_maps [seen_files; seen_contexts] (world st)) st.

Definition busy_state : St MemFs :=
  set_world (set_self (set_running true (self (world seen_state)))
               (world seen_state)) seen_state.

(** No session asks for an additional pass; the first one does. *)
Definition single_pass : Collaborators MemFs := mem_collaborators 0.
Definition two_pass : Collaborators MemFs := mem_collaborators 1.

(** A compiler with a records output path, one entry producing [main.js],
    and a [shouldEmit] tap that vetoes. *)
Definition veto_state : St MemFs :=
  with_tap "shouldEmit" (returning "veto" (VBool false))
    (with_tap "make" (producing "entry" [("main.js", Str "code")])
       (mem_state no_files None (Some "/out/.records.json"))).

(** A compiler whose records hold what an earlier build left there, and
    whose records input path names a file that does not exist. *)
Definition kept_records : Cell :=
  {| elems := None; props := {[ "modules" := VStr "byIdentifier" ]} |}.

Definition rebuilt_state : St MemFs :=
  let st := mem_state no_files (Some "/project/records.json") None in
  set_world (set_heap [kept_records] (world st)) st.

(** A compiler whose records file exists and does not parse. *)
Definition broken_records_state : St MemFs :=
  mem_state
    {| files := [("/project/records.json", Str "{oops")]; refused := [] |}
    (Some "/project/records.json") None.

(** A compiler with two assets to emit, one with a query string and one in a
    directory, and a records output path. *)
Definition two_asset_state : St MemFs :=
  with_tap "done" (returning "report" VUndefined)
    (with_tap "make"
       (producing "entry" [("bundle.js?v=1", Str "code"); ("js/a.js", Buf [])])
       (mem_state no_files None (Some "/out/.records.json"))).

(** The same compiler once its first compile stage has completed. *)
Definition compiled_state : St MemFs :=
  snd (compile (X:=two_pass) (snd (run_begin two_asset_state))).

(** A state holding one asset source that has not been emitted yet. *)
Definition one_source : Source :=
  {| source := Str "code"; existsAt := None; emitted := None |}.

Definition asset_state : St MemFs :=
  let st := mem_state no_files None None in
  set_world (set_sources [one_source] (world st)) st.




(** The vetoing compiler once its compile stage has completed. *)
Definition veto_compiled_state : St MemFs :=
  snd (compile (X:=single_pass) (snd (run_begin veto_state))).

(** The compiler with the broken records file when [readRecords] is
    reached. *)
Definition broken_begin : St MemFs := snd (run_begin broken_records_state).
Definition broken_before : St MemFs :=
  snd (callAsync "beforeRun" ACompiler broken_begin).
Definition broken_reading : St MemFs :=
  snd (callAsync "run" ACompiler broken_before).


Definition vetoed_state : St MemFs :=
  snd (callBail "shouldEmit" (ACompilation 0) veto_compiled_state).

(** The two-asset compiler after [shouldEmit], after the emission of its
    first session, and after that session asked for another pass. *)
Definition unvetoed_state : St MemFs :=
  snd (callBail "shouldEmit" (ACompilation 0) compiled_state).
Definition emitted_state : St MemFs :=
  snd (emitAssets (X:=two_pass) 0 unvetoed_state).
Definition asked_state : St MemFs :=
  snd (needAdditionalPass_hook (X:=two_pass) 0 emitted_state).


(** The vetoing compiler with a [done] tap that fails, and the two-asset
    compiler with a [beforeRun] tap that fails. *)
Definition EPIPE : Error := {| err_name := "Error"; err_message := "EPIPE" |}.

Definition veto_failing_state : St MemFs :=
  with_tap "done" (failing "report" EPIPE) veto_state.

Definition failing_state : St MemFs :=
  with_tap "beforeRun" (failing "check" EPIPE) two_asset_state.

(** No adapter has a [purge] method; session [c] has two entry points, with
    chunks [2c] and [2c+1]. *)
Definition mem_periphery : Periphery MemFs :=
  {| fs_purge := fun _ => None;
     entrypoint_chunks := fun c _ => [[2 * c]; [2 * c + 1]] |}.

(** A compiler whose [make] tap fails. *)
Definition failing_make_state : St MemFs :=
  with_tap "make" (failing "entry" EPIPE) (mem_state no_files None None).

(** The state with one source on a file system that refuses to write
    [/dist/js/app.js], and what a first emission of the asset leaves. *)
Definition refusing_state : St MemFs :=
  set_world
    (set_fs {| files := []; refused := ["/dist/js/app.js"] |}
       (world asset_state)) asset_state.

Definition refusing_dirs_state : St MemFs :=
  snd (mkdirp (X:=single_pass) 1 "/dist/js" refusing_state).

Definition refused_once_state : St MemFs :=
  snd (emitFile (X:=single_pass) 1 "/dist" ("js/app.js?v=2", 0) refusing_state).

(** A compiler whose records file holds an empty object. *)
Definition readable_state : St MemFs :=
  mem_state
    {| files := [("/project/records.json", Str "{}")]; refused := [] |}
    (Some "/project/records.json") None.

(** The two-asset compiler as the child of a session that already has an
    asset [main.js]. *)
Definition adopted (parent : loc) (c : Compiler) : Compiler :=
  {| hooks := hooks c; name := name c; parentCompilation := Some parent;
     outputPath := outputPath c; outputFileSystem := outputFileSystem c;
     inputFileSystem := inputFileSystem c;
     recordsInputPath := recordsInputPath c;
     recordsOutputPath := recordsOutputPath c; records := records c;
     fileTimestamps := fileTimestamps c;
     contextTimestamps := contextTimestamps c;
     resolverFactory := resolverFactory c; options := options c;
     context := context c; running := running c |}.

Definition child_state : St MemFs :=
  let w := world two_asset_state in
  set_world
    (set_comps [Compilation.mk [("main.js", 0)] false None None None
                  VUndefined None]
       (set_sources [one_source] (set_self (adopted 0 (self w)) w)))
    two_asset_state.

Definition child_compiled_state : St MemFs :=
  snd (compile (X:=single_pass) child_state).

(** A compiler whose [compile] tap throws. *)
Definition throwing_state : St MemFs :=
  with_tap "compile" (failing "boom" EPIPE) (mem_state no_files None None).

Global Instance Content_eq_dec : EqDecision Content.
Proof. solve_decision. Defined.

Global Instance Stats_eq_dec : EqDecision Stats.t.
Proof. solve_decision. Defined.

Global Instance CompilationParams_eq_dec : EqDecision CompilationParams.
Proof. solve_decision. Defined.

Global Instance HookArg_eq_dec : EqDecision HookArg.
Proof. solve_decision. Defined.

Global Instance Event_eq_dec : EqDecision Event.
Proof. solve_decision. Defined.

(** * Properties *)

Create HintDb settle.

Section Properties.
Context {F : Type} {X : Collaborators F}.

Lemma thenK_cases {A} (m : M F A) onerr (k : A -> K) st x :
  thenK m onerr k st = Some x ->
  (exists a st', m st = (Ok a, st') /\ k a st' = Some x) \/
  (exists e st', m st = (Fail e, st') /\ x = onerr e st') \/
  (exists e st', m st = (Throws e, st') /\ x = (Throws e, st')).
Proof.
  unfold thenK. destruct (m st) as [[a|e|e] st']; intros H.
  - left. eauto.
  - right. left. exists e, st'. split; [done|]. congruence.
  - right. right. exists e, st'. split; [done|]. congruence.
Qed.

Lemma settled_finalCallback r (st : St F) :
  settled (Some (finalCallback r st)).
Proof. unfold finalCallback. destruct r; simpl; done. Qed.

Lemma settled_throw e st : settled (Some (@throw F Stats.t e st)).
Proof. done. Qed.

Lemma settled_thenK {A} (m : M F A) onerr (k : A -> K) st :
  (forall e st', settled (Some (onerr e st'))) ->
  (forall a st', settled (k a st')) ->
  settled (thenK m onerr k st).
Proof.
  intros Herr Hk. unfold thenK. destruct (m st) as [[a|e|e] st']; auto.
  done.
Qed.

Local Hint Resolve settled_finalCallback settled_throw : settle.

Ltac settle :=
  repeat first
    [ apply settled_thenK; [intros; unfold finalCallback_err; auto with settle|intros]
    | apply settled_finalCallback
    | progress unfold done_ ].

Lemma settled_onCompiled_step again startTime r st :
  (forall st', settled (again st')) ->
  settled (onCompiled_step again startTime r st).
Proof.
  intros Hagain. destruct r as [compilation|err|err]; simpl; try done;
    try apply settled_finalCallback.
  settle. case_bool_decide; settle.
  destruct (truthy _); settle. apply Hagain.
Qed.

Lemma settled_onCompiled fuel startTime r st :
  settled (onCompiled fuel startTime r st).
Proof.
  revert r st. induction fuel as [|fuel IH]; intros r st; simpl;
    apply settled_onCompiled_step; intros st'; [done|].
  destruct (compile st') as [r1 st1]. apply IH.
Qed.

Lemma settled_run_stages fuel startTime st :
  settled (run_stages fuel startTime st).
Proof.
  unfold run_stages. settle.
  destruct (compile _) as [r1 st1]. apply settled_onCompiled.
Qed.

(** With more fuel a build that reached an outcome reaches the same one. *)
Lemma thenK_mono {A} (m : M F A) onerr (k k' : A -> K) st x :
  (forall a st', k a st' = Some x -> k' a st' = Some x) ->
  thenK m onerr k st = Some x -> thenK m onerr k' st = Some x.
Proof.
  intros Hk. unfold thenK. destruct (m st) as [[a|e|e] st']; auto.
Qed.

Lemma onCompiled_step_mono (again again' : K) startTime r st x :
  (forall st', again st' = Some x -> again' st' = Some x) ->
  onCompiled_step again startTime r st = Some x ->
  onCompiled_step again' startTime r st = Some x.
Proof.
  intros Hagain. destruct r as [compilation|err|err]; simpl; try done.
  apply thenK_mono. intros v st1. case_bool_decide; [done|].
  apply thenK_mono. intros _ st2. apply thenK_mono. intros more st3.
  destruct (truthy more); [|done].
  do 4 (apply thenK_mono; intros ? ?). apply Hagain.
Qed.

Lemma onCompiled_mono fuel startTime r st x :
  onCompiled fuel startTime r st = Some x ->
  onCompiled (S fuel) startTime r st = Some x.
Proof.
  revert r st. induction fuel as [|fuel IH]; intros r st.
  - apply onCompiled_step_mono. done.
  - apply onCompiled_step_mono. intros st'.
    destruct (compile st') as [r1 st1]. apply IH.
Qed.

Lemma run_mono fuel st x :
  run fuel st = Some x -> run (S fuel) st = Some x.
Proof.
  unfold run. destruct (running _); [done|].
  destruct (run_begin st) as [startTime st1]. unfold run_stages.
  do 3 (apply thenK_mono; intros ? ?).
  destruct (compile _) as [r1 st2]. apply onCompiled_mono.
Qed.

(** When no session ever asks for an additional pass, a build reaches an
    outcome without any fuel. *)
Lemma thenK_total {A} (m : M F A) onerr (k : A -> K) st :
  (forall a st', is_Some (k a st')) -> is_Some (thenK m onerr k st).
Proof.
  intros Hk. unfold thenK. destruct (m st) as [[a|e|e] st']; eauto.
Qed.

Lemma run_total_single_pass st :
  (forall c w, truthy (fst (needAdditionalPass_call c w)) = false) ->
  is_Some (run 0 st).
Proof.
  intros Hno. unfold run. destruct (running _); [eauto|].
  destruct (run_begin st) as [startTime st1]. unfold run_stages.
  do 3 (apply thenK_total; intros ? ?).
  destruct (compile _) as [[compilation|err|err] st2]; simpl;
    unfold done_; eauto.
  apply thenK_total. intros v st3. case_bool_decide.
  - do 2 (apply thenK_total; intros ? ?). unfold done_. eauto.
  - apply thenK_total. intros _ st4. unfold thenK at 1.
    unfold needAdditionalPass_hook.
    pose proof (Hno compilation (world (log (EvSessionHook compilation "needAdditionalPass") st4))) as Hn.
    destruct (needAdditionalPass_call _ _) as [more w]. simpl in Hn.
    rewrite Hn. do 3 (apply thenK_total; intros ? ?). unfold done_. eauto.
Qed.
(** ** The entry points *)

(** C3: [run] on a compiler that is already running reaches the callback at
    once with the concurrency-guard error and leaves the whole state as it
    was: both timestamp tables, the [running] flag, and everything else; no
    hook is called. *)
Theorem run_while_running (fuel : nat) (st : St F) :
  running (self (world st)) = true ->
  run fuel st = Some (Fail ConcurrentCompilationError, st).
Proof. intros Hrun. unfold run. by rewrite Hrun. Qed.

Lemma lookup_alloc_first {A} (l : list A) (x y : A) :
  (l ++ [x] ++ [y]) !! length l = Some x.
Proof. rewrite lookup_app_r by lia. by rewrite Nat.sub_diag. Qed.

Lemma lookup_alloc_second {A} (l : list A) (x y : A) :
  ((l ++ [x]) ++ [y]) !! length (l ++ [x]) = Some y.
Proof. rewrite lookup_app_r by lia. by rewrite Nat.sub_diag. Qed.

(** C1, as the code has it: [run] does not touch the timestamp tables, its
    stage sequence starts on a state that differs from the caller's only in
    [running]; [watch], on a compiler that is not running, replaces both
    tables by new empty Maps (and leaves the Maps it had untouched) before
    it creates the watching handle. *)
Theorem run_keeps_watch_resets (fuel : nat) (st : St F) :
  running (self (world st)) = false ->
  (let st1 := snd (run_begin st) in
   run fuel st = run_stages fuel (clock (world st)) st1 /\
   world st1 = set_self (set_running true (self (world st))) (world st) /\
   file_table (world st1) = file_table (world st) /\
   context_table (world st1) = context_table (world st) /\
   trace st1 = trace st) /\
  (exists handle st2,
     watch st = (Ok handle, st2) /\
     running (self (world st2)) = true /\
     file_table (world st2) = Some ∅ /\
     context_table (world st2) = Some ∅ /\
     fileTimestamps (self (world st2)) <> contextTimestamps (self (world st2)) /\
     forall l, l < length (maps (world st)) ->
               maps (world st2) !! l = maps (world st) !! l).
Proof.
  intros Hidle. split.
  - unfold run. rewrite Hidle. simpl. by repeat split.
  - unfold watch. rewrite Hidle. eexists _, _. split; [reflexivity|].
    simpl. unfold file_table, context_table. simpl.
    repeat split.
    + rewrite <- app_assoc. apply lookup_alloc_first.
    + apply lookup_alloc_second.
    + rewrite length_app. simpl. lia.
    + intros l Hl. rewrite <- app_assoc. by rewrite lookup_app_l.
Qed.

(** C4: when an attempt started by [run] reaches the caller's callback, with
    a report or with any failure, [running] is false again, and a further
    [run] passes the guard and starts its stage sequence. *)
Theorem run_ends_idle (fuel : nat) (st st' : St F) (r : Res Stats.t) :
  running (self (world st)) = false ->
  run fuel st = Some (r, st') ->
  fired r ->
  running (self (world st')) = false /\
  forall fuel', run fuel' st' =
    run_stages fuel' (clock (world st')) (snd (run_begin st')).
Proof.
  intros Hidle Hrun Hfired.
  assert (running (self (world st')) = false) as Hdone.
  { unfold run in Hrun. rewrite Hidle in Hrun.
    destruct (run_begin st) as [startTime st1].
    pose proof (settled_run_stages fuel startTime st1) as Hs.
    rewrite Hrun in Hs. destruct r; simpl in *; done. }
  split; [done|]. intros fuel'. unfold run. by rewrite Hdone.
Qed.

(** ** Record persistence *)

(** C7, as the code has it: with nothing to read [readRecords] completes
    without an error.  Without an input path the records become a new empty
    object; with an input path that fails [stat] the records in memory are
    left exactly as they were, whatever they hold. *)
Theorem readRecords_nothing_to_read (st : St F) :
  nothing_to_read st ->
  exists st',
    readRecords st = (Ok tt, st') /\
    if falsy_path (recordsInputPath (self (world st))) then
      records (self (world st')) = VRef (length (heap (world st))) /\
      heap (world st') = heap (world st) ++ [new_object]
    else
      records (self (world st')) = records (self (world st)) /\
      heap (world st') = heap (world st).
Proof.
  unfold nothing_to_read, readRecords, andThen. simpl.
  intros [Hno|(a & Ha & Hstat)].
  - rewrite Hno. simpl. eexists. by split.
  - destruct (falsy_path _) eqn:Hp; simpl; [eexists; by split|].
    rewrite Ha. simpl. unfold stat. simpl.
    destruct (fs_stat _ _ _) as [[e|] f]; simpl in *.
    + eexists. by split.
    + by destruct Hstat.
Qed.

(** C8: on an existing records file whose content does not parse,
    [readRecords] fails with the parser's error, its message prefixed by
    the fixed marker; the records in memory and the object store are as
    before; and in a [run] that got this far the attempt ends there: the
    callback receives that failure and nothing of the compile stage has
    happened. *)
Theorem readRecords_parse_failure (fuel : nat) (startTime : Z)
    (st0 st1 st : St F) (path : string) (a : loc) (f1 f2 : F)
    (content : Buffer) (e : Error) :
  callAsync "beforeRun" ACompiler st0 = (Ok tt, st1) ->
  callAsync "run" ACompiler st1 = (Ok tt, st) ->
  recordsInputPath (self (world st)) = Some path ->
  path <> "" ->
  inputFileSystem (self (world st)) = Some a ->
  fs_stat a path (fs (world st)) = (None, f1) ->
  fs_readFile a path f1 = (inr content, f2) ->
  parseJson (Buffer_toString content) (length (heap (world st))) = inl e ->
  exists st',
    readRecords st = (Fail (cannot_parse e), st') /\
    err_message (cannot_parse e) = "Cannot parse records: " +:+ err_message e /\
    records (self (world st')) = records (self (world st)) /\
    heap (world st') = heap (world st) /\
    trace st' = trace st ++ [EvCall "readRecords"; EvStat a path; EvReadFile a path] /\
    run_stages fuel startTime st0 = Some (Fail (cannot_parse e), idle st').
Proof.
  intros Hbefore Hrun Hpath Hne Ha Hstat Hread Hparse.
  assert (falsy_path (Some path) = false) as Hfalsy.
  { simpl. by apply String.eqb_neq. }
  assert (exists st', readRecords st = (Fail (cannot_parse e), st') /\
            world st' = set_fs f2 (world st) /\
            trace st' = trace st ++ [EvCall "readRecords"; EvStat a path; EvReadFile a path])
    as (st' & Hrr & Hw & Htr).
  { unfold readRecords, andThen. simpl. rewrite Hpath, Hfalsy. simpl.
    rewrite Ha. simpl. unfold stat. simpl. rewrite Hstat. simpl.
    unfold readFile. simpl. rewrite Hread. simpl.
    unfold parse_records. simpl. rewrite Hparse.
    eexists. split; [reflexivity|]. simpl. split; [done|].
    by rewrite <- !app_assoc. }
  exists st'. rewrite Hw. repeat split; try done.
  unfold run_stages, thenK. rewrite Hbefore, Hrun, Hrr. done.
Qed.

(** ** What the orchestrator logs *)

Lemma extends_refl (st : St F) : extends st st.
Proof. exists []. by rewrite app_nil_r. Qed.

Lemma extends_trans (st1 st2 st3 : St F) :
  extends st1 st2 -> extends st2 st3 -> extends st1 st3.
Proof.
  intros [e1 H1] [e2 H2]. exists (e1 ++ e2). by rewrite H2, H1, app_assoc.
Qed.

Lemma andThen_ok {A B} (m : M F A) (k : A -> M F B) st b st' :
  andThen m fail k st = (Ok b, st') ->
  exists a st1, m st = (Ok a, st1) /\ k a st1 = (Ok b, st').
Proof.
  unfold andThen, fail. destruct (m st) as [[a|e|e] st1]; intros H;
    [eauto|done|done].
Qed.

Lemma hook_call_trace name arg (st : St F) r st' :
  (callAsync name arg st = (r, st') \/ callAsyncParallel name arg st = (r, st') \/
   call name arg st = (r, st')) ->
  (trace st' = trace st ++ [EvHook name arg] /\ hook_taps name st <> None) \/
  (st' = st /\ hook_taps name st = None /\ exists e, r = Throws e).
Proof.
  unfold callAsync, callAsyncParallel, call, no_hook, throw.
  destruct (hook_taps name st) as [ts|].
  - intros H. left. split; [|done].
    destruct H as [H|[H|H]];
      [destruct (series ts arg _) as [o w]
      |destruct (parallel ts arg _) as [o w]
      |destruct (series ts arg _) as [o w]]; by inversion H.
  - intros H. right. destruct H as [H|[H|H]]; inversion H; eauto.
Qed.

Lemma callBail_trace name arg (st : St F) r st' :
  callBail name arg st = (r, st') ->
  (trace st' = trace st ++ [EvHook name arg] /\ hook_taps name st <> None) \/
  (st' = st /\ hook_taps name st = None /\ exists e, r = Throws e).
Proof.
  unfold callBail, no_hook, throw. destruct (hook_taps name st) as [ts|].
  - intros H. left. split; [|done].
    destruct (bail ts arg _) as [o w]. by inversion H.
  - intros H. right. inversion H; eauto.
Qed.

Lemma hook_call_extends name arg (st : St F) r st' :
  (callAsync name arg st = (r, st') \/ callAsyncParallel name arg st = (r, st') \/
   call name arg st = (r, st')) ->
  extends st st'.
Proof.
  intros H. apply hook_call_trace in H as [[H _]|[-> _]].
  - by eexists.
  - apply extends_refl.
Qed.

Lemma newCompilationParams_extends (st : St F) r st' :
  newCompilationParams st = (r, st') -> extends st st'.
Proof.
  unfold newCompilationParams, createNormalModuleFactory,
    createContextModuleFactory, andThen, new_opaque, ret, fail. simpl.
  destruct (call "normalModuleFactory" _ _) as [r1 st1] eqn:H1.
  apply (fun H => hook_call_extends _ _ _ _ _ (or_intror (or_intror H))) in H1.
  destruct H1 as [ev1 H1]. simpl in H1.
  destruct r1 as [[]|e|e]; [|intros [= _ <-]; by eexists..].
  destruct (call "contextModuleFactory" _ _) as [r2 st2] eqn:H2.
  apply (fun H => hook_call_extends _ _ _ _ _ (or_intror (or_intror H))) in H2.
  destruct H2 as [ev2 H2]. simpl in H2.
  destruct r2 as [[]|e|e]; intros [= _ <-];
    exists (ev1 ++ ev2); simpl; by rewrite H2, H1, app_assoc.
Qed.

(** The session that [compile] hands to its callback is one it has just
    constructed: [new Compilation] for it is logged during that very call. *)
Lemma compile_new_session st compilation st' :
  compile st = (Ok compilation, st') ->
  exists before after,
    trace st' = trace st ++ before ++ EvNewCompilation compilation :: after.
Proof.
  unfold compile. intros H.
  apply andThen_ok in H as ([] & sa & Ha & H). inversion Ha; subst sa; clear Ha.
  apply andThen_ok in H as (params & sb & Hb & H).
  apply newCompilationParams_extends in Hb as [e1 Hb]. simpl in Hb.
  apply andThen_ok in H as ([] & sc & Hc & H).
  apply (fun H => hook_call_extends _ _ _ _ _ (or_introl H)) in Hc as [e2 Hc].
  apply andThen_ok in H as ([] & sd & Hd & H).
  apply (fun H => hook_call_extends _ _ _ _ _ (or_intror (or_intror H))) in Hd as [e3 Hd].
  apply andThen_ok in H as (c & se & He & H).
  unfold newCompilation in He.
  apply andThen_ok in He as (c0 & s1 & H1 & He).
  unfold createCompilation in H1. inversion H1; subst c0 s1; clear H1.
  apply andThen_ok in He as (this_ & s2 & H2 & He).
  inversion H2; subst this_ s2; clear H2.
  apply andThen_ok in He as ([] & s3 & H3 & He).
  inversion H3; subst s3; clear H3.
  apply andThen_ok in He as ([] & s4 & H4 & He).
  apply (fun H => hook_call_extends _ _ _ _ _ (or_intror (or_intror H))) in H4 as [e4 H4].
  apply andThen_ok in He as ([] & s5 & H5 & He).
  apply (fun H => hook_call_extends _ _ _ _ _ (or_intror (or_intror H))) in H5 as [e5 H5].
  inversion He; subst c se; clear He.
  apply andThen_ok in H as ([] & sf & Hf & H).
  apply (fun H => hook_call_extends _ _ _ _ _ (or_intror (or_introl H))) in Hf as [e6 Hf].
  apply andThen_ok in H as ([] & sg & Hg & H).
  inversion Hg; subst sg; clear Hg.
  apply andThen_ok in H as ([] & sh & Hh & H).
  unfold seal_session in Hh. destruct (seal _ _) as [o w].
  inversion Hh; subst sh; clear Hh.
  apply andThen_ok in H as ([] & si & Hi & H).
  apply (fun H => hook_call_extends _ _ _ _ _ (or_introl H)) in Hi as [e7 Hi].
  inversion H; subst. simpl in *.
  rewrite Hi. simpl. rewrite Hf, H5, H4. simpl. rewrite Hd, Hc, Hb.
  exists ([EvCall "compile"] ++ e1 ++ e2 ++ e3),
    (e4 ++ e5 ++ e6 ++
     [EvFinish (length (comps (world sd))); EvSeal (length (comps (world sd)))] ++ e7).
  rewrite <- !app_assoc. simpl. reflexivity.
Qed.

(** ** After the compile stage *)

Lemma onCompiled_unfold fuel startTime r :
  onCompiled fuel startTime r =
  onCompiled_step
    (match fuel with
     | O => fun _ => None
     | S fuel' =>
         fun st => let '(r', st') := compile st in
                   onCompiled fuel' startTime r' st'
     end) startTime r.
Proof. by destruct fuel. Qed.

(** C2, as the code has it: when [shouldEmit] yields [false] the
    orchestrator builds a report with both timestamps set and goes straight
    to [done]: no asset is emitted and records are not persisted either (the
    call of [done] is all it logs after the veto).  The callback then receives
    the report, or the failure of [done] if one of its taps fails. *)
Theorem shouldEmit_veto (fuel : nat) (startTime : Z) (compilation : loc)
    (st st1 : St F) :
  callBail "shouldEmit" (ACompilation compilation) st = (Ok (VBool false), st1) ->
  let stats :=
    Stats.mk compilation (Some startTime) (Some (clock (world st1))) in
  exists r st2,
    callAsync "done" (AStats stats) st1 = (r, st2) /\
    (fired r -> trace st2 = trace st1 ++ [EvHook "done" (AStats stats)]) /\
    onCompiled fuel startTime (Ok compilation) st =
      Some (match r with
            | Ok _ => (Ok stats, idle st2)
            | Fail err => (Fail err, idle st2)
            | Throws err => (Throws err, st2)
            end).
Proof.
  intros Hveto stats.
  destruct (callAsync "done" (AStats stats) st1) as [r st2] eqn:Hdone.
  exists r, st2. split; [done|]. split.
  - intros Hfired.
    apply (fun H => hook_call_trace _ _ _ _ _ (or_introl H)) in Hdone
      as [[H _]|(_ & _ & e & ->)]; done.
  - rewrite onCompiled_unfold. simpl. unfold thenK at 1. rewrite Hveto.
    simpl. unfold thenK, new_Stats, andThen, Date_now, ret. simpl.
    fold stats. rewrite Hdone. by destruct r.
Qed.

(** C5: when, after the assets have been emitted, the session's
    [needAdditionalPass] hook asks for more, the session's flag is set, [done]
    is called with a report on that session, then [additionalPass] runs, then
    [compile] is entered again and the session it yields is newly
    constructed; records are not persisted in between (the two hook calls
    are all that is logged before the new compile stage).  A tap of [done] or
    [additionalPass] that fails ends the attempt through the final callback,
    as any stage failure does. *)
Theorem additional_pass_loop (fuel : nat) (startTime : Z) (compilation : loc)
    (st st1 st2 st3 : St F) (v more : Val) :
  callBail "shouldEmit" (ACompilation compilation) st = (Ok v, st1) ->
  v <> VBool false ->
  emitAssets compilation st1 = (Ok tt, st2) ->
  needAdditionalPass_hook compilation st2 = (Ok more, st3) ->
  truthy more = true ->
  let st4 := marked compilation st3 in
  let stats :=
    Stats.mk compilation (Some startTime) (Some (clock (world st3))) in
  (forall k, comps (world st3) !! compilation = Some k ->
     exists k', comps (world st4) !! compilation = Some k' /\
                Compilation.needAdditionalPass k' = true) /\
  onCompiled (S fuel) startTime (Ok compilation) st =
    match callAsync "done" (AStats stats) st4 with
    | (Ok _, st5) =>
        match callAsync "additionalPass" ANone st5 with
        | (Ok _, st6) =>
            let '(r, st7) := compile st6 in onCompiled fuel startTime r st7
        | (Fail err, st6) => Some (Fail err, idle st6)
        | (Throws err, st6) => Some (Throws err, st6)
        end
    | (Fail err, st5) => Some (Fail err, idle st5)
    | (Throws err, st5) => Some (Throws err, st5)
    end /\
  forall st5 st6,
    callAsync "done" (AStats stats) st4 = (Ok tt, st5) ->
    callAsync "additionalPass" ANone st5 = (Ok tt, st6) ->
    trace st6 =
      trace st3 ++ [EvHook "done" (AStats stats); EvHook "additionalPass" ANone] /\
    forall next st7,
      compile st6 = (Ok next, st7) ->
      exists before after,
        trace st7 = trace st6 ++ before ++ EvNewCompilation next :: after.
Proof.
  intros Hshould Hv Hemit Hhook Hmore st4 stats. split; [|split].
  - intros k Hk. exists (set_needAdditionalPass true k). split; [|done].
    subst st4. unfold marked. simpl. rewrite list_lookup_alter_eq.
    by rewrite Hk.
  - rewrite onCompiled_unfold. simpl. unfold thenK at 1. rewrite Hshould.
    rewrite bool_decide_eq_false_2 by done.
    unfold thenK at 1. rewrite Hemit. unfold thenK at 1. rewrite Hhook, Hmore.
    unfold thenK, update_compilation, modify, new_Stats, andThen, Date_now,
      ret. simpl. fold (marked compilation st3). fold st4. fold stats.
    reflexivity.
  - intros st5 st6 Hdone Hadd. split.
    + apply (fun H => hook_call_trace _ _ _ _ _ (or_introl H)) in Hdone
        as [[H5 _]|(_ & _ & e & ?)]; [|done].
      apply (fun H => hook_call_trace _ _ _ _ _ (or_introl H)) in Hadd
        as [[H6 _]|(_ & _ & e & ?)]; [|done].
      rewrite H6, H5. subst st4. unfold marked. simpl.
      by rewrite <- app_assoc.
    + intros next st7. apply compile_new_session.
Qed.

(** ** Asset emission *)

Lemma index_query (s : string) :
  match String.index 0 "?" s with
  | Some n => String.substring 0 n s = before_query s
  | None => s = before_query s
  end.
Proof.
  induction s as [|c s IH]; [done|].
  cbn [String.index String.prefix before_query].
  destruct (ascii_dec "?" c) as [<-|Hne].
  - by destruct s.
  - rewrite (proj2 (Ascii.eqb_neq c "?")) by congruence.
    destruct (String.index 0 "?" s) as [n|];
      cbn [String.substring]; by rewrite <- IH.
Qed.

Lemma targetFile_before_query (file : string) :
  targetFile_of file = before_query file.
Proof.
  unfold targetFile_of, indexOf, substr0.
  pose proof (index_query file) as H.
  destruct (String.index 0 "?" file) as [n|]; simpl; [|done].
  rewrite (proj2 (Z.leb_le 0 (Z.of_nat n))) by lia. by rewrite Nat2Z.id.
Qed.


(** ** Spawning a child compiler *)


Lemma find_zip_seq (names : list string) (first : nat) (n : string) :
  NoDup names ->
  forall l,
    snd <$> List.find (fun p => String.eqb (fst p) n)
              (zip names (seq first (length names))) = Some l <->
    exists i, names !! i = Some n /\ l = first + i.
Proof.
  intros Hnd. revert first. induction Hnd as [|x names Hx Hnd IH];
    intros first l; simpl.
  - split; [done|]. by intros (i & Hi & _).
  - destruct (String.eqb x n) eqn:Heq; simpl.
    + apply String.eqb_eq in Heq as ->. split.
      * intros [= <-]. exists 0. split; [done|lia].
      * intros ([|i] & Hi & ->); [f_equal; lia|].
        simpl in Hi. destruct Hx. apply list_elem_of_lookup. eauto.
    + apply String.eqb_neq in Heq. rewrite IH. split.
      * intros (i & Hi & ->). exists (S i). split; [done|lia].
      * intros ([|i] & Hi & ->); simpl in Hi; [congruence|].
        exists i. split; [done|lia].
Qed.

Lemma hook_names_NoDup : NoDup hook_names.
Proof. apply (bool_decide_unpack _). by vm_compute. Qed.

Lemma fresh_compiler_hooks (c : Compiler) (first : nat) :
  hooks c = zip hook_names (seq first (length hook_names)) ->
  separate_hooks c /\
  hooks_below (first + length hook_names) c /\
  (forall n l, hook_of c n = Some l -> first <= l) /\
  (forall n, n ∈ hook_names -> is_Some (hook_of c n)).
Proof.
  intros Hc.
  assert (forall n l, hook_of c n = Some l <->
            exists i, hook_names !! i = Some n /\ l = first + i) as Hlook.
  { intros n l. unfold hook_of. rewrite Hc.
    apply find_zip_seq, hook_names_NoDup. }
  repeat split.
  - intros n m l [i [Hi ->]]%Hlook [j [Hj Hij]]%Hlook.
    assert (i = j) as -> by lia. congruence.
  - intros n l [i [Hi ->]]%Hlook. apply lookup_lt_Some in Hi. lia.
  - intros n l [i [Hi ->]]%Hlook. lia.
  - intros n [i Hi]%list_elem_of_lookup. exists (first + i).
    apply Hlook. eauto.
Qed.









(** *** The records of a child *)




Lemma andThen_Ok {A B} (m : M F A) onerr (k : A -> M F B) st a st1 :
  m st = (Ok a, st1) -> andThen m onerr k st = k a st1.
Proof. intros H. unfold andThen. by rewrite H. Qed.






Lemma store_only_andThen {A B} (m : M F A) onerr (k : A -> M F B) :
  store_only m -> (forall e, store_only (onerr e)) ->
  (forall a, store_only (k a)) -> store_only (andThen m onerr k).
Proof.
  intros Hm Herr Hk st r st'. unfold andThen.
  destruct (m st) as [[a|e|e] st1] eqn:H1; apply Hm in H1 as (? & ? & ?).
  - intros (? & ? & ?)%Hk. repeat split; congruence.
  - intros (? & ? & ?)%Herr. repeat split; congruence.
  - by intros [= <- <-].
Qed.

Lemma store_only_pure {A} (r0 : St F -> Res A) :
  store_only (fun st : St F => (r0 st, st)).
Proof. by intros st r st' [= <- <-]. Qed.

Lemma store_only_set_heap {A} (a : St F -> A) (f : St F -> list Cell) :
  store_only (fun st => (Ok (a st), set_world (set_heap (f st) (world st)) st)).
Proof. by intros st r st' [= <- <-]. Qed.

Lemma store_only_cell_at l : store_only (F:=F) (cell_at l).
Proof.
  intros st r st'. unfold cell_at, throw.
  destruct (heap (world st) !! l); by intros [= <- <-].
Qed.

Local Hint Resolve store_only_cell_at : settle.

Ltac store_only :=
  repeat first
    [ apply store_only_andThen; [|intros ?|intros ?]
    | apply store_only_cell_at
    | apply (store_only_pure (fun _ => _))
    | apply (store_only_pure (fun st => Ok (self (world st))))
    | apply (store_only_set_heap (fun _ => tt))
    | apply (store_only_set_heap (fun st => length (heap (world st))))
    | progress unfold ret, fail, throw, this, alloc, modify
    | match goal with
      | |- store_only (match ?x with _ => _ end) => destruct x
      | |- store_only (if ?x then _ else _) => destruct x
      end ].















End Properties.

(** * The properties on concrete compilers *)

(** C3 at work: a second [run] on the busy compiler. *)
Lemma run_while_running_witness :
  running (self (world busy_state)) = true /\
  run (X:=single_pass) 3 busy_state
    = Some (Fail ConcurrentCompilationError, busy_state).
Proof.
  split; [reflexivity|].
  apply (run_while_running (X:=single_pass) 3 busy_state). reflexivity.
Defined.

(** C1 at work, on a compiler whose tables hold entries. *)
Lemma run_keeps_watch_resets_witness :
  running (self (world seen_state)) = false /\
  file_table (world (snd (run_begin seen_state)))
    = file_table (world seen_state) /\
  exists handle st2,
    watch seen_state = (Ok handle, st2) /\ file_table (world st2) = Some ∅.
Proof.
  split; [reflexivity|].
  destruct (run_keeps_watch_resets (X:=single_pass) 0 seen_state eq_refl)
    as [(_ & _ & Hf & _) (h & st2 & Hw & _ & Hft & _)].
  split; [exact Hf|]. exists h, st2. split; [exact Hw|exact Hft].
Defined.

(** C1 does not hold as stated.  On a compiler whose tables hold entries,
    [run] starts its stages with those entries still in both tables (they
    are not reset to empty), and [watch] leaves the compiler with two empty
    tables (what they held does not persist). *)
Lemma run_resets_watch_keeps_counterexample :
  file_table (world (snd (run_begin seen_state))) = Some seen_files /\
  context_table (world (snd (run_begin seen_state))) = Some seen_contexts /\
  seen_files <> ∅ /\
  seen_contexts <> ∅ /\
  exists handle st2,
    watch seen_state = (Ok handle, st2) /\
    file_table (world seen_state) = Some seen_files /\
    file_table (world st2) = Some ∅ /\
    context_table (world st2) = Some ∅.
Proof.
  split; [reflexivity|]. split; [reflexivity|].
  split; [intros H; by apply (f_equal (lookup "/project/src/index.js")) in H|].
  split; [intros H; by apply (f_equal (lookup "/project/src")) in H|].
  eexists _, _. split; [reflexivity|]. by repeat split.
Qed.

(** C4 at work: a build with one additional pass. *)
Lemma run_ends_idle_witness :
  running (self (world two_asset_state)) = false /\
  exists stats st',
    run (X:=two_pass) 1 two_asset_state = Some (Ok stats, st') /\
    running (self (world st')) = false.
Proof.
  split; [reflexivity|].
  assert (exists stats st',
            run (X:=two_pass) 1 two_asset_state = Some (Ok stats, st'))
    as (stats & st' & Hrun).
  { eexists _, _. vm_compute. reflexivity. }
  exists stats, st'. split; [exact Hrun|].
  exact (proj1 (run_ends_idle (X:=two_pass) 1 two_asset_state st' (Ok stats)
                  eq_refl Hrun I)).
Defined.

(** C2 at work: the vetoed build reports to [done] and nothing else. *)
Lemma shouldEmit_veto_witness :
  callBail "shouldEmit" (ACompilation 0) veto_compiled_state
    = (Ok (VBool false), vetoed_state) /\
  exists stats st2,
    onCompiled (X:=single_pass) 0 1000 (Ok 0) veto_compiled_state
      = Some (Ok stats, idle st2) /\
    stats = Stats.mk 0 (Some 1000%Z) (Some 1001%Z) /\
    trace st2 = trace vetoed_state ++ [EvHook "done" (AStats stats)].
Proof.
  assert (callBail "shouldEmit" (ACompilation 0) veto_compiled_state
          = (Ok (VBool false), vetoed_state)) as Hveto
    by (vm_compute; reflexivity).
  split; [exact Hveto|].
  destruct (shouldEmit_veto (X:=single_pass) 0 1000 0 veto_compiled_state
              vetoed_state Hveto) as (r & st2 & Hdone & Htrace & Heq).
  assert (r = Ok tt) as Hr.
  { vm_compute in Hdone. by inversion Hdone. }
  rewrite Hr in Heq, Htrace. eexists _, st2.
  split; [exact Heq|]. split; [reflexivity|]. exact (Htrace I).
Defined.

(** C2 does not hold as stated.  With a records output path configured, the
    vetoed build succeeds without ever entering record persistence: the
    records file is not written, and no file at all. *)
Lemma shouldEmit_veto_counterexample :
  recordsOutputPath (self (world veto_state)) = Some "/out/.records.json" /\
  exists stats st',
    run (X:=single_pass) 0 veto_state = Some (Ok stats, st') /\
    EvHook "shouldEmit" (ACompilation 0) ∈ trace st' /\
    (EvCall "emitRecords" ∉ trace st') /\
    files (fs (world st')) = [].
Proof.
  split; [reflexivity|]. eexists _, _. split; [vm_compute; reflexivity|].
  split; [|split; [|reflexivity]];
    apply (bool_decide_unpack _); by vm_compute.
Qed.

(** C5 at work: the first session of the two-asset compiler asks for
    another pass, and the build goes on with a second session. *)
Lemma additional_pass_loop_witness :
  callBail "shouldEmit" (ACompilation 0) compiled_state
    = (Ok VUndefined, unvetoed_state) /\
  emitAssets (X:=two_pass) 0 unvetoed_state = (Ok tt, emitted_state) /\
  needAdditionalPass_hook (X:=two_pass) 0 emitted_state
    = (Ok (VBool true), asked_state) /\
  exists stats st',
    onCompiled (X:=two_pass) 1 1000 (Ok 0) compiled_state
      = Some (Ok stats, st') /\
    Stats.compilation stats = 1.
Proof.
  assert (callBail "shouldEmit" (ACompilation 0) compiled_state
          = (Ok VUndefined, unvetoed_state)) as H1 by (vm_compute; reflexivity).
  assert (emitAssets (X:=two_pass) 0 unvetoed_state = (Ok tt, emitted_state))
    as H2 by (vm_compute; reflexivity).
  assert (needAdditionalPass_hook (X:=two_pass) 0 emitted_state
          = (Ok (VBool true), asked_state)) as H3 by (vm_compute; reflexivity).
  repeat (split; [assumption|]).
  destruct (additional_pass_loop (X:=two_pass) 0 1000 0 compiled_state
              unvetoed_state emitted_state asked_state VUndefined (VBool true)
              H1 ltac:(discriminate) H2 H3 eq_refl) as (_ & Heq & _).
  rewrite Heq. eexists _, _. split; [vm_compute; reflexivity|reflexivity].
Defined.


(** C7 at work: the records input path names a missing file. *)
Lemma readRecords_nothing_to_read_witness :
  nothing_to_read (X:=single_pass) rebuilt_state /\
  exists st',
    readRecords (X:=single_pass) rebuilt_state = (Ok tt, st') /\
    records (self (world st')) = records (self (world rebuilt_state)) /\
    heap (world st') = heap (world rebuilt_state).
Proof.
  assert (nothing_to_read (X:=single_pass) rebuilt_state) as Hnothing.
  { right. exists 0. split; [reflexivity|]. vm_compute. eexists. reflexivity. }
  split; [exact Hnothing|].
  destruct (readRecords_nothing_to_read (X:=single_pass) rebuilt_state Hnothing)
    as (st' & Hrun & Hcase).
  exists st'. split; [exact Hrun|]. exact Hcase.
Defined.

(** C7 does not hold as stated.  The records of this compiler hold what an
    earlier build left in them and its input path names a missing file:
    [readRecords] completes without an error and the records in memory are
    still those, not an empty store. *)
Lemma readRecords_missing_file_counterexample :
  recordsInputPath (self (world rebuilt_state)) = Some "/project/records.json" /\
  fst (fs_stat (Collaborators:=single_pass) 0 "/project/records.json"
         (fs (world rebuilt_state))) = Some ENOENT /\
  exists st',
    readRecords (X:=single_pass) rebuilt_state = (Ok tt, st') /\
    records (self (world st')) = VRef 0 /\
    heap (world st') !! 0 = Some kept_records /\
    props kept_records !! "modules" = Some (VStr "byIdentifier") /\
    kept_records <> new_object.
Proof.
  split; [reflexivity|]. split; [reflexivity|].
  eexists. split; [vm_compute; reflexivity|].
  split; [reflexivity|]. split; [reflexivity|]. split; [reflexivity|].
  intros H. by apply (f_equal (fun c => props c !! "modules")) in H.
Qed.

(** C8 at work: a records file that does not parse. *)
Lemma readRecords_parse_failure_witness :
  callAsync "beforeRun" ACompiler broken_begin = (Ok tt, broken_before) /\
  callAsync "run" ACompiler broken_before = (Ok tt, broken_reading) /\
  parseJson (Collaborators:=single_pass) "{oops"
    (length (heap (world broken_reading))) = inl SyntaxError /\
  exists st',
    run_stages (X:=single_pass) 0 1000 broken_begin
      = Some (Fail {| err_name := "SyntaxError";
                      err_message := "Cannot parse records: Unexpected token" |},
              idle st') /\
    records (self (world st')) = records (self (world broken_reading)) /\
    trace st' = trace broken_reading ++
      [EvCall "readRecords"; EvStat 0 "/project/records.json";
       EvReadFile 0 "/project/records.json"].
Proof.
  split; [vm_compute; reflexivity|]. split; [vm_compute; reflexivity|].
  split; [reflexivity|].
  destruct (readRecords_parse_failure (X:=single_pass) 0 1000
              broken_begin broken_before broken_reading
              "/project/records.json" 0
              (fs (world broken_reading)) (fs (world broken_reading))
              (list_ascii_of_string "{oops") SyntaxError)
    as (st' & _ & _ & Hrec & _ & Htrace & Hrun);
    try (vm_compute; reflexivity); [discriminate|].
  exists st'. split; [exact Hrun|]. split; [exact Hrec|exact Htrace].
Defined.





(** ** Failing stages *)

(** A [beforeRun] tap that fails: the callback receives its error, nothing
    else has run, and the compiler is idle again. *)
Example run_failing_beforeRun :
  exists st',
    run (X:=two_pass) 1 failing_state = Some (Fail EPIPE, st') /\
    trace st' = [EvHook "beforeRun" ACompiler] /\
    running (self (world st')) = false.
Proof. eexists. split; [vm_compute; reflexivity|]. by split. Qed.

(** A [done] tap that fails on the vetoed path: the callback receives its
    error, and still nothing was written. *)
Example run_veto_failing_done :
  exists st',
    run (X:=single_pass) 0 veto_failing_state = Some (Fail EPIPE, st') /\
    files (fs (world st')) = [] /\
    running (self (world st')) = false.
Proof. eexists. split; [vm_compute; reflexivity|]. by split. Qed.

(** An asset whose directory cannot be created: it is not written, its
    flags stay as they were, and the error is that of the emission. *)
Example emitFile_refused_directory :
  let st := set_world (set_fs {| files := []; refused := ["/dist/js"] |}
                         (world asset_state)) asset_state in
  exists st',
    emitFile (X:=single_pass) 1 "/dist" ("js/app.js?v=2", 0) st
      = (Fail EACCES, st') /\
    sources (world st') = [one_source] /\
    trace st' = trace st ++ [EvMkdirp 1 "/dist/js"].
Proof. eexists. split; [vm_compute; reflexivity|]. by split. Qed.

(** * The methods around the build, and the stages in more detail *)

Section Further.
Context {F : Type} {X : Collaborators F} {Y : Periphery F}.

Lemma hook_ok_trace name arg (st : St F) a st' :
  (callAsync name arg st = (Ok a, st') \/
   callAsyncParallel name arg st = (Ok a, st') \/
   call name arg st = (Ok a, st')) ->
  trace st' = trace st ++ [EvHook name arg].
Proof.
  intros H. apply hook_call_trace in H as [[H _]|(_ & _ & e & He)]; done.
Qed.

Lemma newCompilationParams_trace (st : St F) params st' :
  newCompilationParams st = (Ok params, st') ->
  trace st' = trace st ++
    [EvHook "normalModuleFactory" (AFactory (normalModuleFactory params));
     EvHook "contextModuleFactory" (AFactory (contextModuleFactory params))].
Proof.
  unfold newCompilationParams, createNormalModuleFactory,
    createContextModuleFactory. intros H.
  apply andThen_ok in H as (nmf & s1 & H1 & H).
  apply andThen_ok in H1 as (o1 & s2 & H2 & H1).
  inversion H2; subst o1 s2; clear H2.
  apply andThen_ok in H1 as ([] & s3 & H3 & H1).
  apply (fun H => hook_ok_trace _ _ _ _ _ (or_intror (or_intror H))) in H3.
  inversion H1; subst nmf s1; clear H1.
  apply andThen_ok in H as (cmf & s4 & H4 & H).
  apply andThen_ok in H4 as (o2 & s5 & H5 & H4).
  inversion H5; subst o2 s5; clear H5.
  apply andThen_ok in H4 as ([] & s6 & H6 & H4).
  apply (fun H => hook_ok_trace _ _ _ _ _ (or_intror (or_intror H))) in H6.
  inversion H4; subst cmf s4; clear H4.
  apply andThen_ok in H as (deps & s7 & H7 & H).
  inversion H7; subst deps s7; clear H7.
  inversion H; subst; clear H. simpl in *.
  rewrite H6. simpl. rewrite H3. simpl. by rewrite <- app_assoc.
Qed.

(** X5: a compile stage that yields a session has done, in this order and
    each once: the two factory hooks, [beforeCompile], [compile], the
    construction of the session, [thisCompilation], [compilation], [make],
    [finish], [seal], [afterCompile]; everything from the construction on is
    about the session that is yielded, and the hooks before it receive the
    parameters that the session hooks receive. *)
Theorem compile_order (st st' : St F) (compilation : loc) :
  compile st = (Ok compilation, st') ->
  exists params,
    trace st' = trace st ++
      [EvCall "compile";
       EvHook "normalModuleFactory" (AFactory (normalModuleFactory params));
       EvHook "contextModuleFactory" (AFactory (contextModuleFactory params));
       EvHook "beforeCompile" (AParams params);
       EvHook "compile" (AParams params);
       EvNewCompilation compilation;
       EvHook "thisCompilation" (ACompilationParams compilation params);
       EvHook "compilation" (ACompilationParams compilation params);
       EvHook "make" (ACompilation compilation);
       EvFinish compilation;
       EvSeal compilation;
       EvHook "afterCompile" (ACompilation compilation)].
Proof.
  unfold compile. intros H.
  apply andThen_ok in H as ([] & sa & Ha & H). inversion Ha; subst sa; clear Ha.
  apply andThen_ok in H as (params & sb & Hb & H).
  apply newCompilationParams_trace in Hb. simpl in Hb.
  apply andThen_ok in H as ([] & sc & Hc & H).
  apply (fun H => hook_ok_trace _ _ _ _ _ (or_introl H)) in Hc.
  apply andThen_ok in H as ([] & sd & Hd & H).
  apply (fun H => hook_ok_trace _ _ _ _ _ (or_intror (or_intror H))) in Hd.
  apply andThen_ok in H as (c & se & He & H).
  unfold newCompilation in He.
  apply andThen_ok in He as (c0 & s1 & H1 & He).
  unfold createCompilation in H1. inversion H1; subst c0 s1; clear H1.
  apply andThen_ok in He as (this_ & s2 & H2 & He).
  inversion H2; subst this_ s2; clear H2.
  apply andThen_ok in He as ([] & s3 & H3 & He).
  inversion H3; subst s3; clear H3.
  apply andThen_ok in He as ([] & s4 & H4 & He).
  apply (fun H => hook_ok_trace _ _ _ _ _ (or_intror (or_intror H))) in H4.
  apply andThen_ok in He as ([] & s5 & H5 & He).
  apply (fun H => hook_ok_trace _ _ _ _ _ (or_intror (or_intror H))) in H5.
  inversion He; subst c se; clear He.
  apply andThen_ok in H as ([] & sf & Hf & H).
  apply (fun H => hook_ok_trace _ _ _ _ _ (or_intror (or_introl H))) in Hf.
  apply andThen_ok in H as ([] & sg & Hg & H).
  inversion Hg; subst sg; clear Hg.
  apply andThen_ok in H as ([] & sh & Hh & H).
  unfold seal_session in Hh. destruct (seal _ _) as [o w].
  inversion Hh; subst sh; clear Hh.
  apply andThen_ok in H as ([] & si & Hi & H).
  apply (fun H => hook_ok_trace _ _ _ _ _ (or_introl H)) in Hi.
  inversion H; subst. simpl in *.
  exists params.
  rewrite Hi. simpl. rewrite Hf, H5, H4. simpl. rewrite Hd, Hc, Hb.
  rewrite <- !app_assoc. simpl. reflexivity.
Qed.

Lemma logs_pure {A} P (r0 : St F -> Res A) : logs P (fun st => (r0 st, st)).
Proof.
  intros st r st' [= _ <-]. exists []. by rewrite app_nil_r.
Qed.

Lemma logs_world {A} P (r0 : St F -> Res A) (f : St F -> World F) :
  logs P (fun st => (r0 st, set_world (f st) st)).
Proof.
  intros st r st' [= _ <-]. exists []. by rewrite app_nil_r.
Qed.

Lemma logs_modify P (f : World F -> World F) : logs P (modify f).
Proof. apply (logs_world P (fun _ => Ok tt)). Qed.

Lemma logs_andThen {A B} P (m : M F A) onerr (k : A -> M F B) :
  logs P m -> (forall e, logs P (onerr e)) -> (forall a, logs P (k a)) ->
  logs P (andThen m onerr k).
Proof.
  intros Hm Herr Hk st r st'. unfold andThen.
  destruct (m st) as [[a|e|e] st1] eqn:H1; intros H;
    destruct (Hm _ _ _ H1) as (e1 & Ht1 & HP1).
  - destruct (Hk _ _ _ _ H) as (e2 & Ht2 & HP2).
    exists (e1 ++ e2). rewrite Ht2, Ht1, app_assoc. split; [done|].
    by apply Forall_app.
  - destruct (Herr _ _ _ _ H) as (e2 & Ht2 & HP2).
    exists (e1 ++ e2). rewrite Ht2, Ht1, app_assoc. split; [done|].
    by apply Forall_app.
  - inversion H; subst. eauto.
Qed.

Lemma logs_fail {A} P e : logs P (@fail F A e).
Proof. apply (logs_pure P (fun _ => Fail e)). Qed.

Lemma logs_state {A} P (m : St F -> M F A) :
  (forall s, logs P (m s)) -> logs P (fun st => m st st).
Proof. intros H st r st' Hm. by eapply H. Qed.

Lemma logs_one {A} P (e : Event) (r0 : St F -> Res A) (f : St F -> World F) :
  P e -> logs P (fun st => (r0 st, set_world (f st) (log e st))).
Proof.
  intros He st r st' [= _ <-]. exists [e]. split; [done|]. by constructor.
Qed.

Lemma logs_note P e : P e -> logs (F:=F) P (note e).
Proof.
  intros He st r st' [= _ <-]. exists [e]. split; [done|]. by constructor.
Qed.

Lemma logs_mkdirp P a p : P (EvMkdirp a p) -> logs (F:=F) P (mkdirp a p).
Proof.
  intros He st r st'. unfold mkdirp.
  destruct (fs_mkdirp _ _ _) as [o f]. intros [= _ <-].
  exists [EvMkdirp a p]. split; [done|]. by constructor.
Qed.

Lemma logs_writeFile P a p d :
  P (EvWriteFile a p d) -> logs (F:=F) P (writeFile a p d).
Proof.
  intros He st r st'. unfold writeFile.
  destruct (fs_writeFile _ _ _ _) as [o f]. intros [= _ <-].
  exists [EvWriteFile a p d]. split; [done|]. by constructor.
Qed.

Lemma logs_hook P name arg :
  P (EvHook name arg) ->
  logs (F:=F) P (callAsync name arg) /\
  logs (F:=F) P (callAsyncParallel name arg) /\
  logs (F:=F) P (call name arg).
Proof.
  intros He. repeat split; intros st r st' H.
  - apply (fun H => hook_call_trace _ _ _ _ _ (or_introl H)) in H
      as [[H _]|[-> _]]; [exists [EvHook name arg]|exists []];
      rewrite ?app_nil_r; split; try done. by constructor.
  - apply (fun H => hook_call_trace _ _ _ _ _ (or_intror (or_introl H))) in H
      as [[H _]|[-> _]]; [exists [EvHook name arg]|exists []];
      rewrite ?app_nil_r; split; try done. by constructor.
  - apply (fun H => hook_call_trace _ _ _ _ _ (or_intror (or_intror H))) in H
      as [[H _]|[-> _]]; [exists [EvHook name arg]|exists []];
      rewrite ?app_nil_r; split; try done. by constructor.
Qed.

Lemma logs_callBail P name arg :
  P (EvHook name arg) -> logs (F:=F) P (callBail name arg).
Proof.
  intros He st r st' H.
  apply callBail_trace in H as [[H _]|[-> _]];
    [exists [EvHook name arg]|exists []]; rewrite ?app_nil_r; split; try done.
  by constructor.
Qed.

Lemma logs_forEach {A} P (xs : list A) (f : A -> M F unit) :
  (forall x, logs P (f x)) -> logs P (forEach xs f).
Proof.
  intros Hf. induction xs as [|x xs IH]; simpl.
  - apply (logs_pure P (fun _ => Ok tt)).
  - intros st r st'. destruct (f x st) as [[[]|e|e] st1] eqn:H1;
      destruct (Hf _ _ _ _ H1) as (e1 & Ht1 & HP1).
    + intros H. destruct (IH _ _ _ H) as (e2 & Ht2 & HP2).
      exists (e1 ++ e2). rewrite Ht2, Ht1, app_assoc. split; [done|].
      by apply Forall_app.
    + destruct (forEach xs f st1) as [r2 st2] eqn:H2.
      destruct (IH _ _ _ H2) as (e2 & Ht2 & HP2). intros H.
      assert (st' = st2) as -> by (destruct r2; by inversion H).
      exists (e1 ++ e2). rewrite Ht2, Ht1, app_assoc. split; [done|].
      by apply Forall_app.
    + intros [= _ <-]. eauto.
Qed.

Lemma logs_adapter P o : logs (F:=F) P (adapter o).
Proof.
  destruct o; [apply (logs_pure P (fun _ => Ok _))
              |apply (logs_pure P (fun _ => Throws _))].
Qed.

Lemma logs_writeOut P ofs out tf src :
  (forall d, P (EvWriteFile ofs (fs_join ofs out tf) d)) ->
  logs (F:=F) P (writeOut ofs out tf src).
Proof.
  intros He st. unfold writeOut.
  destruct (sources (world st) !! src) as [x|].
  - case_bool_decide.
    + exact (logs_modify P _ st).
    + refine (logs_andThen P _ _ _ _ _ _ st);
        [apply logs_modify|intros; apply logs_fail
        |intros; by apply logs_writeFile].
  - exact (logs_pure P (fun _ => Throws _) st).
Qed.

Lemma logs_emitFile ofs out asset :
  logs (F:=F) (fun e => is_output_call e = true) (emitFile ofs out asset).
Proof.
  destruct asset as [file src]. unfold emitFile.
  destruct (has_separator _).
  - apply logs_andThen; [by apply logs_mkdirp|intros; apply logs_fail|].
    intros. by apply logs_writeOut.
  - by apply logs_writeOut.
Qed.
(** X7: an emission that succeeds has called [emit] first, then created the
    output directory (the output path is resolved, and the output file system
    read, after [emit] has run), then made only calls of the output file
    system, and called [afterEmit] last. *)
Theorem emitAssets_order (compilation : loc) (st st' : St F) :
  emitAssets compilation st = (Ok tt, st') ->
  exists st1 ofs mid,
    callAsync "emit" (ACompilation compilation)
      (log (EvCall "emitAssets") st) = (Ok tt, st1) /\
    outputFileSystem (self (world st1)) = Some ofs /\
    Forall (fun e => is_output_call e = true) mid /\
    trace st' = trace st ++
      [EvCall "emitAssets"; EvHook "emit" (ACompilation compilation);
       EvMkdirp ofs
         (getPath compilation (outputPath (self (world st1))) (world st1))] ++
      mid ++ [EvHook "afterEmit" (ACompilation compilation)].
Proof.
  unfold emitAssets. intros H.
  apply andThen_ok in H as ([] & sa & Ha & H). inversion Ha; subst sa; clear Ha.
  apply andThen_ok in H as ([] & st1 & H1 & H).
  pose proof (hook_ok_trace _ _ _ _ _ (or_introl H1)) as Ht1. simpl in Ht1.
  apply andThen_ok in H as (c & sb & Hb & H). inversion Hb; subst c sb; clear Hb.
  apply andThen_ok in H as (out & sc & Hc & H). inversion Hc; subst out sc; clear Hc.
  apply andThen_ok in H as (ofs & sd & Hd & H).
  destruct (outputFileSystem (self (world st1))) as [a|] eqn:Hofs; [|done].
  inversion Hd; subst ofs sd; clear Hd.
  apply andThen_ok in H as ([] & se & He & H).
  assert (trace se = trace st1 ++
    [EvMkdirp a (getPath compilation (outputPath (self (world st1))) (world st1))])
    as Hte.
  { unfold mkdirp in He. destruct (fs_mkdirp _ _ _) as [o f].
    by inversion He. }
  apply andThen_ok in H as (assets & sf & Hf & H).
  assert (sf = se) as ->.
  { unfold assets_of in Hf. destruct (comps (world se) !! compilation);
      by inversion Hf. }
  apply andThen_ok in H as ([] & sg & Hg & H).
  apply (logs_forEach (fun e => is_output_call e = true)) in Hg
    as (mid & Hmid & HP); [|intros; apply logs_emitFile].
  apply (fun H => hook_ok_trace _ _ _ _ _ (or_introl H)) in H.
  exists st1, a, mid. repeat split; [done..|].
  rewrite H, Hmid, Hte, Ht1. rewrite <- !app_assoc. reflexivity.
Qed.


Ltac grow :=
  repeat (intros;
    first
      [ apply logs_andThen
      | apply logs_fail
      | apply logs_adapter
      | apply logs_modify
      | apply logs_note; done
      | apply logs_mkdirp; done
      | apply logs_writeFile; done
      | apply logs_callBail; done
      | apply (proj1 (logs_hook _ _ _ I))
      | apply (proj1 (proj2 (logs_hook _ _ _ I)))
      | apply (proj2 (proj2 (logs_hook _ _ _ I)))
      | apply logs_pure ]).

Lemma logs_emitRecords : logs (F:=F) any_event emitRecords.
Proof.
  unfold emitRecords, this, ret. grow. intros c.
  destruct (falsy_path (recordsOutputPath c)); grow.
  destruct (falsy_path _); grow; intros ofs st; cbv beta;
    by apply logs_writeFile.
Qed.

Lemma logs_emitAssets compilation : logs (F:=F) any_event (emitAssets compilation).
Proof.
  unfold emitAssets, this, ret. grow.
  - intros st r st'. unfold assets_of.
    destruct (comps (world st) !! compilation); intros [= _ <-];
      exists []; by rewrite app_nil_r.
  - apply logs_forEach. intros [file src] st r st' H.
    apply logs_emitFile in H as (evs & H & _). exists evs. split; [done|].
    by apply Forall_forall.
Qed.

Lemma logs_readRecords : logs (F:=F) any_event readRecords.
Proof.
  unfold readRecords, this, ret. grow. intros c.
  destruct (falsy_path (recordsInputPath c)).
  - grow. apply (logs_world any_event (fun _ => Ok _)).
  - grow.
    + intros st r st'. unfold stat. destruct (fs_stat _ _ _) as [o f].
      intros [= _ <-]. exists [EvStat a0 (default "" (recordsInputPath c))].
      split; [done|]. by constructor.
    + intros st r st'. unfold readFile. destruct (fs_readFile _ _ _) as [o f].
      intros [= _ <-]. exists [EvReadFile a0 (default "" (recordsInputPath c))].
      split; [done|]. by constructor.
    + intros content st r st'. unfold parse_records. cbv zeta.
      destruct (parseJson _ _) as [e|[v cells]]; intros [= _ <-];
        exists []; by rewrite app_nil_r.
Qed.

Ltac stage H a s Hm :=
  apply thenK_cases in H as [(a & s & Hm & H)|[(? & ? & _ & H)|(? & ? & _ & H)]];
  [|by (unfold finalCallback_err, finalCallback, throw in H; inversion H)..].

Lemma done_reports startTime compilation (st : St F) stats st' :
  thenK (new_Stats compilation startTime) throw (fun stats =>
  thenK (callAsync "done" (AStats stats)) finalCallback_err (fun _ =>
  done_ (finalCallback (Ok stats)))) st = Some (Ok stats, st') ->
  Stats.startTime stats = Some startTime /\
  is_Some (Stats.endTime stats) /\
  Stats.compilation stats = compilation /\
  running (self (world st')) = false /\
  trace st' = trace st ++ [EvHook "done" (AStats stats)].
Proof.
  intros H. stage H stats0 s1 H1. inversion H1; subst stats0 s1; clear H1.
  stage H u s2 H2. destruct u.
  apply (fun H => hook_ok_trace _ _ _ _ _ (or_introl H)) in H2.
  unfold done_, finalCallback in H. inversion H; subst; clear H.
  simpl. eauto.
Qed.

Lemma onCompiled_ok fuel startTime r (st : St F) stats st' :
  onCompiled fuel startTime r st = Some (Ok stats, st') -> exists c, r = Ok c.
Proof.
  rewrite onCompiled_unfold. destruct r as [c|e|e]; [eauto|..];
    unfold onCompiled_step, done_, finalCallback; intros [=].
Qed.

Lemma onCompiled_reports fuel startTime r (st : St F) stats st' :
  onCompiled fuel startTime r st = Some (Ok stats, st') ->
  Stats.startTime stats = Some startTime /\
  is_Some (Stats.endTime stats) /\
  running (self (world st')) = false /\
  exists mid,
    trace st' = trace st ++ mid ++ [EvHook "done" (AStats stats)] /\
    (r = Ok (Stats.compilation stats) \/
     EvNewCompilation (Stats.compilation stats) ∈ mid).
Proof.
  revert r st. induction fuel as [|fuel IH]; intros r st;
    rewrite onCompiled_unfold;
    (destruct r as [c|e|e];
     [|by (simpl; unfold done_, finalCallback; intros [=])..]);
    unfold onCompiled_step; intros H.
  all: stage H v s1 H1.
  all: apply (logs_callBail any_event) in H1 as (e1 & Ht1 & _); [|done].
  all: case_bool_decide.
  1,3: apply done_reports in H as (Hs & He & Hc & Hr & Ht);
    repeat split; try done; exists e1; rewrite Ht, Ht1, <- app_assoc;
    (split; [done|]);
    left; by rewrite Hc.
  all: stage H u s2 H2; destruct u.
  all: apply logs_emitAssets in H2 as (e2 & Ht2 & _).
  all: stage H more s3 H3.
  all: assert (trace s3 = trace s2 ++ [EvSessionHook c "needAdditionalPass"])
    as Ht3 by (unfold needAdditionalPass_hook in H3;
               destruct (needAdditionalPass_call _ _); by inversion H3).
  all: destruct (truthy more).
  2,4: stage H u s4 H4; destruct u;
    apply logs_emitRecords in H4 as (e4 & Ht4 & _);
    apply done_reports in H as (Hs & He & Hc & Hr & Ht);
    repeat split; try done;
    exists (e1 ++ e2 ++ [EvSessionHook c "needAdditionalPass"] ++ e4);
    rewrite Ht, Ht4, Ht3, Ht2, Ht1; rewrite <- !app_assoc; split; [done|];
    left; by rewrite Hc.
  all: stage H u s4 H4; destruct u; inversion H4; subst s4; clear H4.
  all: stage H stats0 s5 H5; inversion H5; subst stats0 s5; clear H5.
  all: stage H u s6 H6; destruct u.
  all: apply (fun H => hook_ok_trace _ _ _ _ _ (or_introl H)) in H6.
  all: stage H u s7 H7; destruct u.
  all: apply (fun H => hook_ok_trace _ _ _ _ _ (or_introl H)) in H7.
  - done.
  - destruct (compile s7) as [r' s8] eqn:Hcomp.
    destruct (IH _ _ H) as (Hs & He & Hr & mid & Ht & Hor).
    repeat split; try done.
    assert (exists e8, trace s8 = trace s7 ++ e8 /\
              (r' = Ok (Stats.compilation stats) ->
               EvNewCompilation (Stats.compilation stats) ∈ e8))
      as (e8 & Ht8 & Hnew).
    { destruct (onCompiled_ok _ _ _ _ _ _ H) as [c' ->].
      apply compile_new_session in Hcomp as (b & a & Hcomp).
      exists (b ++ EvNewCompilation c' :: a). split; [done|].
      intros [= <-]. rewrite elem_of_app, elem_of_cons. auto. }
    assert (trace s6 = trace s3 ++
              [EvHook "done" (AStats (Stats.mk c (Some startTime)
                                        (Some (clock (world s3)))))])
      as Ht6 by exact H6.
    exists (e1 ++ e2 ++ [EvSessionHook c "needAdditionalPass"] ++
            [EvHook "done" (AStats (Stats.mk c (Some startTime)
                                      (Some (clock (world s3)))))] ++
            [EvHook "additionalPass" ANone] ++ e8 ++ mid).
    split.
    + rewrite Ht, Ht8, H7, Ht6, Ht3, Ht2, Ht1. by rewrite <- !app_assoc.
    + right. do 5 (apply elem_of_app; right). apply elem_of_app.
      destruct Hor as [Hor|Hor]; [left; by apply Hnew|by right].
Qed.

(** X3: when [run] hands a report to the callback, the compiler was idle
    and is idle again; the start time of the report is the clock at the call
    of [run] and its end time is set; the first thing the build did was to
    call [beforeRun], the last to call [done] with that very report; and the
    session of the report was constructed during this build. *)
Theorem run_reports (fuel : nat) (st st' : St F) (stats : Stats.t) :
  run fuel st = Some (Ok stats, st') ->
  running (self (world st)) = false /\
  running (self (world st')) = false /\
  Stats.startTime stats = Some (clock (world st)) /\
  is_Some (Stats.endTime stats) /\
  exists mid,
    trace st' = trace st ++
      EvHook "beforeRun" ACompiler :: mid ++ [EvHook "done" (AStats stats)] /\
    EvNewCompilation (Stats.compilation stats) ∈ mid.
Proof.
  unfold run. destruct (running (self (world st))) eqn:Hrun; [done|].
  unfold run_begin, run_stages. intros H.
  stage H u s1 H1. destruct u.
  apply (fun H => hook_ok_trace _ _ _ _ _ (or_introl H)) in H1. simpl in H1.
  stage H u s2 H2. destruct u.
  apply (fun H => hook_ok_trace _ _ _ _ _ (or_introl H)) in H2.
  stage H u s3 H3. destruct u.
  apply logs_readRecords in H3 as (e3 & Ht3 & _).
  destruct (compile s3) as [r s4] eqn:Hcomp.
  destruct (onCompiled_reports _ _ _ _ _ _ H) as (Hs & He & Hr & mid & Ht & Hor).
  repeat split; try done.
  destruct (onCompiled_ok _ _ _ _ _ _ H) as [c ->].
  apply compile_new_session in Hcomp as (b & a & Hcomp).
  exists ([EvHook "run" ACompiler] ++ e3 ++ (b ++ EvNewCompilation c :: a) ++ mid).
  rewrite Ht, Hcomp, Ht3, H2, H1. rewrite <- !app_assoc. simpl.
  split; [reflexivity|].
  apply elem_of_cons. right. apply elem_of_app. right.
  apply elem_of_app. right. apply elem_of_cons.
  destruct Hor as [[= ->]|Hor]; [by left|].
  right. apply elem_of_app. by right.
Qed.

Lemma before_query_append (f q : string) :
  before_query (f +:+ "?" +:+ q) = before_query f.
Proof.
  induction f as [|c f IH]; simpl; [done|].
  destruct (Ascii.eqb c "?"); [done|]. by rewrite <- IH.
Qed.

Lemma before_query_idemp (f : string) :
  before_query (before_query f) = before_query f.
Proof.
  induction f as [|c f IH]; simpl; [done|].
  destruct (Ascii.eqb c "?") eqn:Hc; [done|]. simpl. by rewrite Hc, IH.
Qed.

Lemma emitFile_targetFile ofs out file src :
  emitFile ofs out (file, src) =
  if has_separator (before_query file) then
    andThen
      (mkdirp ofs (fs_join ofs out (path_dirname (before_query file)))) fail
      (fun _ => writeOut ofs out (before_query file) src)
  else writeOut ofs out (before_query file) src.
Proof.
  rewrite <- targetFile_before_query. reflexivity.
Qed.

(** X8: what follows the first question mark of an asset's name plays no
    part in its emission: for a name [f] without a question mark, emitting
    [f?q] is emitting [f]. *)
Theorem emitFile_ignores_query (ofs : loc) (outputPath f q : string)
    (src : loc) :
  indexOf f "?" = (-1)%Z ->
  emitFile ofs outputPath (f +:+ "?" +:+ q, src) =
    emitFile ofs outputPath (f, src).
Proof.
  intros Hf. rewrite !emitFile_targetFile, before_query_append.
  reflexivity.
Qed.

Lemma mkdirp_sources a p (st : St F) r st' :
  mkdirp a p st = (r, st') ->
  sources (world st') = sources (world st) /\
  trace st' = trace st ++ [EvMkdirp a p].
Proof.
  unfold mkdirp. destruct (fs_mkdirp _ _ _) as [o f]. by intros [= _ <-].
Qed.

Lemma writeOut_marks ofs out tf src s (st : St F) r st' :
  sources (world st) !! src = Some s ->
  writeOut ofs out tf src st = (r, st') ->
  exists s', sources (world st') !! src = Some s' /\
             existsAt s' = Some (fs_join ofs out tf) /\
             source s' = source s.
Proof.
  intros Hs. unfold writeOut. rewrite Hs.
  pose proof (lookup_lt_Some _ _ _ Hs) as Hlt.
  case_bool_decide as Hex.
  - intros [= _ <-]. simpl. rewrite list_lookup_insert_eq by done. eauto.
  - unfold andThen, update_source, modify, writeFile. simpl.
    destruct (fs_writeFile _ _ _ _) as [o f]. intros [= _ <-]. simpl.
    rewrite list_lookup_insert_eq by done. eauto.
Qed.

Lemma writeOut_skip ofs out tf src s (st : St F) :
  sources (world st) !! src = Some s ->
  existsAt s = Some (fs_join ofs out tf) ->
  writeOut ofs out tf src st =
    (Ok tt,
     set_world (set_sources (<[src := set_emitted false s]> (sources (world st)))
                  (world st)) st).
Proof.
  intros Hs Hex. unfold writeOut. rewrite Hs. by rewrite bool_decide_true.
Qed.

(** X9: an asset is written at most once to a target.  Once an emission of
    it got past the creation of its directory, whether its write succeeded,
    failed or was skipped, a second emission to the same output path calls
    [writeFile] not at all: it only creates the directory again, can fail
    only there, and when it succeeds the asset is marked as not emitted. *)
Theorem emitFile_once (ofs : loc) (outputPath file : string) (src : loc)
    (s : Source) (st stm st1 st2 : St F) (r1 r2 : Res unit) :
  sources (world st) !! src = Some s ->
  let targetFile := before_query file in
  let targetPath := fs_join ofs outputPath targetFile in
  (if has_separator targetFile
   then mkdirp ofs (fs_join ofs outputPath (path_dirname targetFile)) st
        = (Ok tt, stm)
   else stm = st) ->
  emitFile ofs outputPath (file, src) st = (r1, st1) ->
  emitFile ofs outputPath (file, src) st1 = (r2, st2) ->
  trace st2 = trace st1 ++ directory_call ofs outputPath targetFile /\
  (forall e, r2 = Fail e ->
     fst (fs_mkdirp ofs (fs_join ofs outputPath (path_dirname targetFile))
            (fs (world st1))) = Some e) /\
  (r2 = Ok tt ->
   sources (world st2) !! src =
     Some {| source := source s; existsAt := Some targetPath;
             emitted := Some false |}).
Proof.
  intros Hs targetFile targetPath Hdir.
  rewrite !emitFile_targetFile. fold targetFile. unfold directory_call.
  destruct (has_separator targetFile).
  - unfold andThen at 1. rewrite Hdir. intros H1.
    apply mkdirp_sources in Hdir as [Hsm _]. rewrite <- Hsm in Hs.
    unfold andThen, mkdirp.
    destruct (fs_mkdirp _ _ (fs (world (log _ st1)))) as [[e|] f] eqn:Hmk;
      simpl in Hmk; rewrite Hmk; simpl.
    + intros [= <- <-]. repeat split; [|done]. by intros e' [= ->].
    + intros H2.
      destruct (writeOut_marks _ _ _ _ _ _ _ _ Hs H1) as (s' & Hs' & Hex & Hsrc).
      erewrite writeOut_skip in H2; [|exact Hs'|exact Hex].
      inversion H2; subst; clear H2. simpl.
      rewrite list_lookup_insert_eq by (by eapply lookup_lt_Some).
      unfold set_emitted. rewrite Hex, Hsrc. repeat split; done.
  - subst stm. intros H1 H2.
    destruct (writeOut_marks _ _ _ _ _ _ _ _ Hs H1) as (s' & Hs' & Hex & Hsrc).
    rewrite (writeOut_skip _ _ _ _ _ _ Hs' Hex) in H2.
    inversion H2; subst; clear H2. simpl.
    rewrite list_lookup_insert_eq by (by eapply lookup_lt_Some).
    unfold set_emitted. rewrite Hex, Hsrc, app_nil_r. repeat split; done.
Qed.

Lemma last_from_spec (t s : string) (i j : nat) :
  last_from t s i = Some j ->
  exists s1 s2, s = s1 +:+ s2 /\ j = i + String.length s1 /\
                String.prefix t s2 = true.
Proof.
  revert i. induction s as [|c s IH]; intros i; cbn [last_from].
  - destruct t; [|done]. intros [= <-]. exists "", "". simpl.
    split; [done|]. split; [lia|done].
  - destruct (last_from t s (S i)) as [j'|] eqn:Hl.
    + intros [= <-]. destruct (IH _ Hl) as (s1 & s2 & -> & -> & Hp).
      exists (String c s1), s2. simpl. split; [done|]. split; [lia|done].
    + destruct (String.prefix t (String c s)) eqn:Hp; [|done].
      intros [= <-]. exists "", (String c s). simpl.
      split; [done|]. split; [lia|done].
Qed.

Lemma prefix_char (c : ascii) (s : string) :
  String.prefix (String c "") s = true -> exists s', s = String c s'.
Proof.
  destruct s as [|b s]; simpl; [done|].
  destruct (ascii_dec c b) as [->|]; [eauto|done].
Qed.

Lemma append_same_length (s1 s1' : string) (a b : ascii) (x y : string) :
  s1 +:+ String a x = s1' +:+ String b y ->
  String.length s1 = String.length s1' -> a = b.
Proof.
  revert s1'. induction s1 as [|c s1 IH]; intros [|c' s1']; simpl;
    try done.
  - by intros [= -> _].
  - intros [= _ H] [= Hl]. eauto.
Qed.

Lemma lastIndexOf_char (s : string) (c : ascii) (n : Z) :
  lastIndexOf s (String c "") = n ->
  n = (-1)%Z \/
  exists s1 s2, s = s1 +:+ String c s2 /\ n = Z.of_nat (String.length s1).
Proof.
  unfold lastIndexOf. destruct (last_from _ s 0) as [j|] eqn:Hl; [|by left].
  intros <-. right. apply last_from_spec in Hl as (s1 & s2 & -> & -> & Hp).
  apply prefix_char in Hp as [s' ->]. by exists s1, s'.
Qed.

Lemma substr0_append (s1 s2 : string) :
  substr0 (s1 +:+ s2) (Z.of_nat (String.length s1)) = s1.
Proof.
  unfold substr0. rewrite Nat2Z.id.
  induction s1 as [|c s1 IH]; simpl.
  - by destruct s2.
  - by rewrite IH.
Qed.

Lemma emitRecords_cut (path : string) :
  let idx1 := lastIndexOf path "/" in
  let idx2 := lastIndexOf path backslash in
  let cut := Z.max idx1 idx2 in
  falsy_path
    (if (idx2 <? idx1)%Z then Some (substr0 path idx1)
     else if (idx1 <? idx2)%Z then Some (substr0 path idx2)
     else None) = negb (0 <? cut)%Z /\
  ((0 <? cut)%Z = true ->
   default ""
     (if (idx2 <? idx1)%Z then Some (substr0 path idx1)
      else if (idx1 <? idx2)%Z then Some (substr0 path idx2)
      else None) = substr0 path cut).
Proof.
  intros idx1 idx2 cut.
  assert (forall (c : ascii) n, lastIndexOf path (String c "") = n ->
            (-1 <= n)%Z /\
            falsy_path (Some (substr0 path n)) = negb (0 <? n)%Z) as Hone.
  { intros c n [->|(s1 & s2 & -> & ->)]%lastIndexOf_char; [by destruct path|].
    split; [lia|]. rewrite substr0_append.
    by destruct s1. }
  assert (idx1 = idx2 -> idx1 = (-1)%Z) as Heq.
  { intros Heq.
    destruct (lastIndexOf_char path _ idx1 eq_refl) as [?|(s1 & s2 & H1 & Hn1)];
      [done|].
    destruct (lastIndexOf_char path _ idx2 eq_refl) as [?|(s1' & s2' & H2 & Hn2)];
      [lia|].
    rewrite H1 in H2. apply append_same_length in H2; [done|lia]. }
  destruct (Hone _ idx1 eq_refl) as [Hge1 Hf1].
  destruct (Hone _ idx2 eq_refl) as [Hge2 Hf2].
  unfold cut. destruct (Z.ltb_spec idx2 idx1) as [Hlt|Hle].
  - rewrite Z.max_l by lia. done.
  - destruct (Z.ltb_spec idx1 idx2) as [Hlt|Hle'].
    + rewrite Z.max_r by lia. done.
    + assert (idx1 = idx2) as H by lia. pose proof (Heq H).
      rewrite Z.max_l by lia. split; [|intros ?%Z.ltb_lt; lia].
      simpl. symmetry. apply negb_true_iff, Z.ltb_ge. lia.
Qed.

(** X10: [emitRecords] in full.  Without a records output path it does
    nothing.  Otherwise the directory is the path up to its last slash or
    backslash, whichever comes later: when that prefix is not empty,
    [mkdirp] is called on it and the records are written if it succeeds (its
    failure is handed on and nothing is written); when the path has no
    separator, or none but its first character, the records are written
    without any [mkdirp].  A null output file system makes the call throw. *)
Theorem emitRecords_directory (st : St F) :
  let c := self (world st) in
  let st0 := log (EvCall "emitRecords") st in
  let path := default "" (recordsOutputPath c) in
  let cut := Z.max (lastIndexOf path "/") (lastIndexOf path backslash) in
  let write (ofs : loc) (s : St F) :=
    writeFile ofs path
      (Str (JSON_stringify (heap (world s)) (records c))) s in
  emitRecords st =
    if falsy_path (recordsOutputPath c) then (Ok tt, st0)
    else
      match outputFileSystem c with
      | None => (Throws (TypeError "Cannot read property of null"), st0)
      | Some ofs =>
          if (0 <? cut)%Z then
            match mkdirp ofs (substr0 path cut) st0 with
            | (Ok _, st1) => write ofs st1
            | (Fail e, st1) => (Fail e, st1)
            | (Throws e, st1) => (Throws e, st1)
            end
          else write ofs st0
      end.
Proof.
  intros c st0 path cut write. unfold emitRecords.
  unfold andThen at 1. simpl. unfold andThen at 1. simpl. fold c st0.
  destruct (falsy_path (recordsOutputPath c)); [done|]. fold path.
  destruct (emitRecords_cut path) as [Hf Hd]. fold cut in Hf, Hd.
  rewrite Hf. destruct (0 <? cut)%Z eqn:Hcut; simpl.
  - rewrite Hd by done. unfold andThen.
    destruct (outputFileSystem c) as [ofs|]; simpl; [|done].
    destruct (mkdirp ofs (substr0 path cut) st0) as [[[]|e|e] st1]; done.
  - unfold andThen. destruct (outputFileSystem c) as [ofs|]; done.
Qed.

(** X11: [readRecords] on a records file that exists calls [stat] and
    [readFile] once each.  A failure of [readFile] is handed on as it is,
    without the prefix of a parse error, and the records and the store stay
    as they were; so they do when the content does not parse; when it
    parses, the records become the parsed value, made of new objects placed
    after the existing ones. *)
Theorem readRecords_reads (st : St F) (path : string) (a : loc) (f1 : F) :
  recordsInputPath (self (world st)) = Some path ->
  path <> "" ->
  inputFileSystem (self (world st)) = Some a ->
  fs_stat a path (fs (world st)) = (None, f1) ->
  exists r st',
    readRecords st = (r, st') /\
    trace st' = trace st ++
      [EvCall "readRecords"; EvStat a path; EvReadFile a path] /\
    fs (world st') = snd (fs_readFile a path f1) /\
    match fst (fs_readFile a path f1) with
    | inl e =>
        r = Fail e /\
        records (self (world st')) = records (self (world st)) /\
        heap (world st') = heap (world st)
    | inr content =>
        match parseJson (Buffer_toString content) (length (heap (world st))) with
        | inl e =>
            r = Fail (cannot_parse e) /\
            records (self (world st')) = records (self (world st)) /\
            heap (world st') = heap (world st)
        | inr (v, cells) =>
            r = Ok tt /\
            records (self (world st')) = v /\
            heap (world st') = heap (world st) ++ cells
        end
    end.
Proof.
  intros Hpath Hne Ha Hstat.
  assert (falsy_path (Some path) = false) as Hfalsy.
  { simpl. by apply String.eqb_neq. }
  unfold readRecords, andThen. simpl. rewrite Hpath, Hfalsy. simpl.
  rewrite Ha. simpl. unfold stat. simpl. rewrite Hstat. simpl.
  unfold readFile. simpl.
  destruct (fs_readFile a path f1) as [[e|content] f2]; simpl.
  - eexists _, _. split; [reflexivity|]. simpl.
    by rewrite <- !app_assoc.
  - unfold parse_records. simpl.
    destruct (parseJson _ _) as [e|[v cells]];
      (eexists _, _; split; [reflexivity|]); simpl;
      by rewrite <- !app_assoc.
Qed.

Lemma heap_only_andThen {A B} (m : M F A) onerr (k : A -> M F B) :
  heap_only m -> (forall e, heap_only (onerr e)) ->
  (forall a, heap_only (k a)) -> heap_only (andThen m onerr k).
Proof.
  intros Hm Herr Hk st r st'. unfold andThen.
  destruct (m st) as [[a|e|e] st1] eqn:H1;
    apply Hm in H1 as (? & ? & ? & ? & ? & ? & ?).
  - intros (? & ? & ? & ? & ? & ? & ?)%Hk.
    repeat split; try congruence. lia.
  - intros (? & ? & ? & ? & ? & ? & ?)%Herr.
    repeat split; try congruence. lia.
  - by intros [= <- <-].
Qed.

Lemma heap_only_pure {A} (r0 : St F -> Res A) :
  heap_only (fun st : St F => (r0 st, st)).
Proof. by intros st r st' [= <- <-]. Qed.

Lemma heap_only_cell_at l : heap_only (F:=F) (cell_at l).
Proof.
  intros st r st'. unfold cell_at, throw.
  destruct (heap (world st) !! l); by intros [= <- <-].
Qed.

Lemma heap_only_insert {A} (a : St F -> A) l (c : St F -> Cell) :
  heap_only
    (fun st => (Ok (a st),
                set_world (set_heap (<[l := c st]> (heap (world st)))
                             (world st)) st)).
Proof.
  intros st r st' [= <- <-]. simpl. rewrite length_insert. by repeat split.
Qed.

Lemma heap_only_alloc (c : Cell) : heap_only (F:=F) (alloc c).
Proof.
  intros st r st' [= <- <-]. simpl. rewrite length_app. simpl.
  repeat split; lia.
Qed.

Ltac heap_only :=
  repeat first
    [ apply heap_only_andThen; [|intros ?|intros ?]
    | apply heap_only_cell_at
    | apply heap_only_alloc
    | apply (heap_only_pure (fun _ => _))
    | apply (heap_only_pure (fun st => Ok (self (world st))))
    | apply (heap_only_insert (fun _ => tt) _ (fun _ => _))
    | progress unfold ret, fail, throw, this, modify
    | match goal with
      | |- heap_only (match ?x with _ => _ end) => destruct x
      | |- heap_only (if ?x then _ else _) => destruct x
      end ].






(** X1: a newly constructed compiler is idle and is no child; it has no file
    system adapter and no records path; it has one empty tap array for each
    of its hooks, no two hooks sharing one; its records are a new empty
    object and its two timestamp tables are two new empty Maps, different
    from each other.  Nothing that existed before is changed: tap arrays,
    objects, Maps, the compiler being run, the log. *)
Theorem new_Compiler_fresh (ctx : string) (st : St F) :
  exists c st',
    new_Compiler ctx st = (Ok c, st') /\
    (running c = false /\ isChild c = false /\ context c = ctx /\
     outputFileSystem c = None /\ inputFileSystem c = None /\
     recordsInputPath c = None /\ recordsOutputPath c = None) /\
    (separate_hooks c /\
     forall n, n ∈ hook_names ->
       exists l, hook_of c n = Some l /\ length (taps st) <= l /\
                 taps st' !! l = Some []) /\
    (exists r, records c = VRef r /\ length (heap (world st)) <= r /\
               heap (world st') !! r = Some new_object) /\
    (length (maps (world st)) <= fileTimestamps c /\
     length (maps (world st)) <= contextTimestamps c /\
     fileTimestamps c <> contextTimestamps c /\
     maps (world st') !! fileTimestamps c = Some ∅ /\
     maps (world st') !! contextTimestamps c = Some ∅) /\
    (forall l, l < length (taps st) -> taps st' !! l = taps st !! l) /\
    (forall l, l < length (heap (world st)) ->
               heap (world st') !! l = heap (world st) !! l) /\
    (forall l, l < length (maps (world st)) ->
               maps (world st') !! l = maps (world st) !! l) /\
    self (world st') = self (world st) /\
    trace st' = trace st.
Proof.
  destruct (new_Compiler ctx st) as [r st'] eqn:Hnew.
  pose proof Hnew as Hrun. unfold new_Compiler in Hrun.
  cbv [andThen alloc new_Map new_opaque ret] in Hrun.
  cbn [world set_taps set_world set_heap set_maps set_objects heap maps
       objects taps] in Hrun.
  injection Hrun as <- <-.
  eexists _, _. split; [reflexivity|].
  cbn [running isChild context outputFileSystem inputFileSystem
       recordsInputPath recordsOutputPath parentCompilation records
       fileTimestamps contextTimestamps world taps trace heap maps self
       set_world set_heap set_maps set_objects set_taps].
  split; [done|]. split; [|split; [|split; [|repeat split]]].
  - match goal with |- separate_hooks ?c /\ _ =>
      destruct (fresh_compiler_hooks c (length (taps st)) eq_refl)
        as (Hsep & Hb & Hge & Hall)
    end.
    split; [done|]. intros n [l Hl]%Hall. exists l.
    split; [done|]. pose proof (Hge _ _ Hl). pose proof (Hb _ _ Hl).
    split; [done|]. rewrite lookup_app_r by done.
    refine (lookup_replicate_2 (length hook_names) [] _ _).
    change (length hook_names) with 24 in *. lia.
  - exists (length (heap (world st))). split; [done|]. split; [done|].
    by apply list_lookup_middle.
  - rewrite length_app. simpl. split; [lia|]. split; [lia|]. split; [lia|].
    split.
    + rewrite <- app_assoc. by apply list_lookup_middle.
    + apply list_lookup_middle. rewrite length_app. simpl. lia.
  - intros l Hl. by rewrite lookup_app_l.
  - intros l Hl. by rewrite lookup_app_l.
  - intros l Hl. rewrite <- app_assoc. by rewrite lookup_app_l.
Qed.







Lemma asset_assign (name n : string) (src : loc) (o : list (string * loc)) :
  asset name (assign n src o) =
  if String.eqb n name then Some src else asset name o.
Proof.
  unfold asset. induction o as [|[k v] o IH]; simpl.
  - by destruct (String.eqb n name).
  - destruct (String.eqb k n) eqn:Hkn; simpl.
    + apply String.eqb_eq in Hkn as ->.
      by destruct (String.eqb n name).
    + destruct (String.eqb k name) eqn:Hk; simpl; [|done].
      apply String.eqb_eq in Hk as ->. by rewrite String.eqb_sym, Hkn.
Qed.

Lemma asset_copied (name : string) (from into : list (string * loc))
    (names : list string) :
  asset name (copied from into names) =
  if bool_decide (name ∈ names) then
    match asset name from with
    | Some src => Some src
    | None => asset name into
    end
  else asset name into.
Proof.
  unfold copied. revert into. induction names as [|n names IH]; intros into.
  - done.
  - cbn [fold_left]. rewrite IH. clear IH.
    destruct (decide (name ∈ names)) as [Hin|Hin].
    + rewrite !bool_decide_true by (by rewrite ?elem_of_cons; auto).
      destruct (asset name from) as [src|] eqn:Hsrc; [done|].
      destruct (asset n from) as [src'|] eqn:Hn; [|done].
      rewrite asset_assign. destruct (String.eqb n name) eqn:Heq; [|done].
      apply String.eqb_eq in Heq as ->. congruence.
    + rewrite (bool_decide_false (name ∈ names)) by done.
      destruct (decide (name = n)) as [->|Hne].
      * rewrite bool_decide_true by (by left).
        destruct (asset n from) as [src|]; [|done].
        by rewrite asset_assign, String.eqb_refl.
      * rewrite bool_decide_false by (rewrite elem_of_cons; tauto).
        destruct (asset n from) as [src|]; [|done].
        rewrite asset_assign.
        destruct (String.eqb n name) eqn:Heq; [|done].
        apply String.eqb_eq in Heq. congruence.
Qed.

Lemma asset_keys (name : string) (o : list (string * loc)) :
  name ∈ map fst o <-> is_Some (asset name o).
Proof.
  unfold asset. induction o as [|[k v] o IH]; simpl.
  - split; [by intros ?%elem_of_nil|by intros [? ?]].
  - rewrite elem_of_cons. destruct (String.eqb k name) eqn:Hk; simpl.
    + apply String.eqb_eq in Hk as ->. split; eauto.
    + apply String.eqb_neq in Hk. rewrite <- IH. split; [|by right].
      intros [->|?]; done.
Qed.

Lemma alter_insert {A} (f : A -> A) (i : nat) (l : list A) (x : A) :
  l !! i = Some x -> alter f i l = <[i := f x]> l.
Proof.
  intros Hx. apply list_eq. intros j. destruct (decide (j = i)) as [->|Hne].
  - rewrite list_lookup_alter_eq, Hx. simpl.
    by rewrite list_lookup_insert_eq by (by eapply lookup_lt_Some).
  - by rewrite list_lookup_alter_ne, list_lookup_insert_ne.
Qed.

Lemma copy_assets_spec (p c : loc) (kc : Compilation.t) (names : list string) :
  p <> c ->
  forall (st : St F) kp,
    comps (world st) !! p = Some kp ->
    comps (world st) !! c = Some kc ->
    each names (copy_asset p c) st =
      (Ok tt,
       set_world
         (set_comps
            (<[p := set_assets
                      (copied (Compilation.assets kc) (Compilation.assets kp)
                         names) kp]> (comps (world st)))
            (world st)) st).
Proof.
  intros Hne. induction names as [|n names IH]; intros st kp Hp Hc.
  - simpl. unfold ret, copied. simpl.
    replace (set_assets (Compilation.assets kp) kp) with kp by (by destruct kp).
    rewrite list_insert_id by done. by destruct st as [? [] ?].
  - cbn [each]. unfold andThen at 1, copy_asset, andThen at 1, assets_of.
    rewrite Hc. unfold copied. cbn [fold_left].
    destruct (asset n (Compilation.assets kc)) as [src|].
    + unfold update_compilation, modify.
      rewrite (alter_insert _ _ _ _ Hp).
      erewrite IH; cycle 1.
      * simpl. apply list_lookup_insert_eq. by eapply lookup_lt_Some.
      * simpl. by rewrite list_lookup_insert_ne.
      * simpl. by rewrite list_insert_insert_eq.
    + unfold ret. by erewrite IH.
Qed.

Lemma fold_left_concat {A} (l : list (list A)) (acc : list A) :
  fold_left (fun array chunks => array ++ chunks) l acc = acc ++ concat l.
Proof.
  revert acc. induction l as [|x l IH]; intros acc; simpl.
  - by rewrite app_nil_r.
  - by rewrite IH, app_assoc.
Qed.

(** X15: [runAsChild] on a child whose compile stage yields a session.  The
    callback receives the chunks of all entry points of the session, in
    order, and the session; the session is appended to the [children] of the
    parent session; and in the parent's assets every name the child has now
    maps to the child's source (the same object), every other name to what
    it mapped to before.  Nothing but the assets of the parent session is
    changed in the state the compile stage left. *)
Theorem runAsChild_merges (children : Children) (st st1 : St F)
    (compilation parent : loc) (kp kc : Compilation.t) :
  compile st = (Ok compilation, st1) ->
  parentCompilation (self (world st1)) = Some parent ->
  comps (world st1) !! parent = Some kp ->
  comps (world st1) !! compilation = Some kc ->
  parent <> compilation ->
  exists assets,
    let kp' := set_assets assets kp in
    let st' :=
      set_world (set_comps (<[parent := kp']> (comps (world st1))) (world st1))
        st1 in
    runAsChild children st =
      (Ok (concat (entrypoint_chunks compilation (world st')), compilation,
           <[parent := default [] (children !! parent) ++ [compilation]]>
             children),
       st') /\
    forall name,
      asset name assets =
        match asset name (Compilation.assets kc) with
        | Some src => Some src
        | None => asset name (Compilation.assets kp)
        end.
Proof.
  intros Hcompile Hparent Hp Hc Hne.
  exists (copied (Compilation.assets kc) (Compilation.assets kp)
            (map fst (Compilation.assets kc))).
  cbv zeta. split.
  - unfold runAsChild. rewrite (andThen_Ok _ _ _ _ _ _ Hcompile).
    unfold andThen at 1, this. rewrite Hparent.
    unfold andThen at 1, assets_of at 1. rewrite Hp.
    unfold andThen at 1, assets_of at 1. rewrite Hc.
    unfold andThen at 1.
    rewrite (copy_assets_spec _ _ _ _ Hne _ _ Hp Hc).
    unfold andThen, ret. by rewrite fold_left_concat.
  - intros name. rewrite asset_copied.
    case_bool_decide as Hin; [done|].
    destruct (asset name (Compilation.assets kc)) eqn:Hsrc; [|done].
    destruct Hin. apply asset_keys. by rewrite Hsrc.
Qed.


(** X4: when no session's [needAdditionalPass] hook ever asks for more,
    [run] reaches its outcome with a single compile stage: whatever the fuel,
    the outcome is the one reached with none. *)
Theorem run_single_pass (fuel : nat) (st : St F) :
  (forall c w, truthy (fst (needAdditionalPass_call c w)) = false) ->
  exists x, run fuel st = Some x /\ run 0 st = Some x.
Proof.
  intros Hno. destruct (run_total_single_pass st Hno) as [x Hx].
  exists x. split; [|done].
  induction fuel as [|fuel IH]; [done|]. by apply run_mono.
Qed.


Lemma andThen_fail {A B} (m : M F A) (k : A -> M F B) st e st' :
  andThen m fail k st = (Fail e, st') ->
  m st = (Fail e, st') \/
  exists a s1, m st = (Ok a, s1) /\ k a s1 = (Fail e, st').
Proof.
  unfold andThen, fail. destruct (m st) as [[a|e'|e'] s1]; intros H;
    [right; eauto|left; by inversion H|done].
Qed.

Lemma hook_fail_trace name arg (st : St F) e st' :
  (callAsync name arg st = (Fail e, st') \/
   callAsyncParallel name arg st = (Fail e, st')) ->
  trace st' = trace st ++ [EvHook name arg].
Proof.
  intros [H|H];
    [apply (fun H => hook_call_trace _ _ _ _ _ (or_introl H)) in H
    |apply (fun H => hook_call_trace _ _ _ _ _ (or_intror (or_introl H))) in H];
    destruct H as [[H _]|(_ & _ & e' & He)]; done.
Qed.

Lemma call_not_fail name arg (st : St F) e st' :
  call name arg st <> (Fail e, st').
Proof.
  unfold call, no_hook, throw. destruct (hook_taps name st) as [ts|]; [|done].
  destruct (series ts arg _) as [[e'|] w]; done.
Qed.

Lemma never_fails_andThen {A B} (m : M F A) (k : A -> M F B) :
  never_fails m -> (forall a, never_fails (k a)) ->
  never_fails (andThen m fail k).
Proof.
  intros Hm Hk st e st' [H|(a & s1 & _ & H)]%andThen_fail;
    [by eapply Hm|by eapply Hk].
Qed.

Lemma never_fails_ok {A} (a : St F -> A) (f : St F -> St F) :
  never_fails (fun st => (Ok (a st), f st)).
Proof. by intros st e st'. Qed.

Lemma never_fails_call name arg : never_fails (F:=F) (call name arg).
Proof. intros st e st'. apply call_not_fail. Qed.

Lemma never_fails_newCompilationParams :
  never_fails (F:=F) newCompilationParams.
Proof.
  unfold newCompilationParams, createNormalModuleFactory,
    createContextModuleFactory.
  repeat first
    [ apply never_fails_andThen; [|intros ?]
    | apply never_fails_call
    | apply (never_fails_ok (fun _ => _) (fun st => st))
    | apply (never_fails_ok (fun st => objects (world st)) (fun st => _)) ].
Qed.

Lemma never_fails_newCompilation params :
  never_fails (F:=F) (newCompilation params).
Proof.
  unfold newCompilation.
  repeat first
    [ apply never_fails_andThen; [|intros ?]
    | apply never_fails_call
    | apply (never_fails_ok (fun _ => _) (fun st => st))
    | apply (never_fails_ok (fun st => self (world st)) (fun st => st))
    | apply (never_fails_ok (fun _ => tt) (fun st => _))
    | apply (never_fails_ok (fun st => length (comps (world st))) (fun st => _)) ].
Qed.

Lemma logs_newCompilationParams :
  logs (F:=F) no_session newCompilationParams.
Proof.
  assert (forall name arg, no_session (EvHook name arg)) as Hhook by done.
  unfold newCompilationParams, createNormalModuleFactory,
    createContextModuleFactory, new_opaque, ret.
  repeat (intros;
    first
      [ apply logs_andThen
      | apply logs_fail
      | apply (proj2 (proj2 (logs_hook _ _ _ (Hhook _ _))))
      | apply (logs_world no_session (fun _ => Ok _))
      | apply logs_pure ]).
Qed.

Lemma newCompilation_trace params (st : St F) c st' :
  newCompilation params st = (Ok c, st') ->
  exists evs, trace st' = trace st ++ EvNewCompilation c :: evs.
Proof.
  unfold newCompilation. intros He.
  apply andThen_ok in He as (c0 & s1 & H1 & He).
  unfold createCompilation in H1. inversion H1; subst c0 s1; clear H1.
  apply andThen_ok in He as (this_ & s2 & H2 & He).
  inversion H2; subst this_ s2; clear H2.
  apply andThen_ok in He as ([] & s3 & H3 & He).
  inversion H3; subst s3; clear H3.
  apply andThen_ok in He as ([] & s4 & H4 & He).
  apply (fun H => hook_ok_trace _ _ _ _ _ (or_intror (or_intror H))) in H4.
  apply andThen_ok in He as ([] & s5 & H5 & He).
  apply (fun H => hook_ok_trace _ _ _ _ _ (or_intror (or_intror H))) in H5.
  inversion He; subst; clear He. simpl in *.
  eexists. rewrite H5, H4. simpl. rewrite <- !app_assoc. simpl. reflexivity.
Qed.

(** X6: when the compile stage calls back with an error, the last thing it
    did is the call that failed, and that call is [beforeCompile], [make],
    [seal] or [afterCompile].  A failing [beforeCompile] comes before any
    session is constructed; in the other three cases a session was
    constructed and the failing call is about it. *)
Theorem compile_failure (st st' : St F) (e : Error) :
  compile st = (Fail e, st') ->
  exists pre last,
    trace st' = trace st ++ pre ++ [last] /\
    ((exists params,
        last = EvHook "beforeCompile" (AParams params) /\
        Forall no_session pre) \/
     (exists c,
        EvNewCompilation c ∈ pre /\
        (last = EvHook "make" (ACompilation c) \/
         last = EvSeal c \/
         last = EvHook "afterCompile" (ACompilation c)))).
Proof.
  unfold compile. intros H.
  apply andThen_fail in H as [H|([] & sa & Ha & H)]; [done|].
  inversion Ha; subst sa; clear Ha.
  apply andThen_fail in H as [H|(params & sb & Hb & H)];
    [by apply never_fails_newCompilationParams in H|].
  apply logs_newCompilationParams in Hb as (e1 & Hb & HP1). simpl in Hb.
  apply andThen_fail in H as [H|([] & sc & Hc & H)].
  { apply (fun H => hook_fail_trace _ _ _ _ _ (or_introl H)) in H.
    exists (EvCall "compile" :: e1), (EvHook "beforeCompile" (AParams params)).
    split; [rewrite H, Hb; by rewrite <- !app_assoc|].
    left. exists params. split; [done|]. by constructor. }
  apply (fun H => hook_ok_trace _ _ _ _ _ (or_introl H)) in Hc.
  apply andThen_fail in H as [H|([] & sd & Hd & H)];
    [by apply call_not_fail in H|].
  apply (fun H => hook_ok_trace _ _ _ _ _ (or_intror (or_intror H))) in Hd.
  apply andThen_fail in H as [H|(c & se & He & H)];
    [by apply never_fails_newCompilation in H|].
  apply newCompilation_trace in He as (e5 & He).
  assert (exists pre, trace se = trace st ++ pre /\ EvNewCompilation c ∈ pre)
    as (pre & Hpre & Hin).
  { eexists. rewrite He, Hd, Hc, Hb. rewrite <- !app_assoc.
    split; [reflexivity|]. simpl. apply elem_of_cons. right.
    apply elem_of_app. right. do 2 (apply elem_of_cons; right).
    by apply elem_of_cons; left. }
  clear He Hd Hc Hb.
  apply andThen_fail in H as [H|([] & sf & Hf & H)].
  { apply (fun H => hook_fail_trace _ _ _ _ _ (or_intror H)) in H.
    exists pre, (EvHook "make" (ACompilation c)).
    split; [by rewrite H, Hpre, <- app_assoc|]. right. exists c. auto. }
  apply (fun H => hook_ok_trace _ _ _ _ _ (or_intror (or_introl H))) in Hf.
  apply andThen_fail in H as [H|([] & sg & Hg & H)]; [done|].
  inversion Hg; subst sg; clear Hg.
  apply andThen_fail in H as [H|([] & sh & Hh & H)].
  { unfold seal_session in H. destruct (seal _ _) as [o w].
    inversion H; subst; clear H. simpl.
    exists (pre ++ [EvHook "make" (ACompilation c); EvFinish c]), (EvSeal c).
    split; [rewrite Hf, Hpre; by rewrite <- !app_assoc|].
    right. exists c. split; [|auto]. apply elem_of_app. by left. }
  assert (trace sh = trace sf ++ [EvFinish c; EvSeal c]) as Hts.
  { unfold seal_session in Hh. destruct (seal _ _) as [o w].
    inversion Hh; subst; simpl. by rewrite <- app_assoc. }
  apply andThen_fail in H as [H|([] & si & Hi & H)]; [|done].
  apply (fun H => hook_fail_trace _ _ _ _ _ (or_introl H)) in H.
  exists (pre ++ [EvHook "make" (ACompilation c); EvFinish c; EvSeal c]),
    (EvHook "afterCompile" (ACompilation c)).
  split; [rewrite H, Hts, Hf, Hpre; by rewrite <- !app_assoc|].
  right. exists c. split; [|auto]. apply elem_of_app. by left.
Qed.

(** X16: when the compile stage yields no session, or the compiler has no
    parent session, [runAsChild] hands no result to its callback and leaves
    the state as the compile stage left it: a failure of the compile stage
    is handed on, and on a compiler that is no child the compile stage runs
    in full before the call throws. *)
Theorem runAsChild_stops (children : Children) (st st1 : St F)
    (r : Res loc) :
  compile st = (r, st1) ->
  (forall c, r = Ok c -> parentCompilation (self (world st1)) = None) ->
  exists r',
    runAsChild children st = (r', st1) /\
    (forall x, r' <> Ok x) /\
    (forall e, r = Fail e -> r' = Fail e).
Proof.
  intros Hcompile Hroot. unfold runAsChild, andThen at 1. rewrite Hcompile.
  destruct r as [c|e|e].
  - unfold andThen, this. rewrite (Hroot c eq_refl).
    eexists. split; [reflexivity|]. split; [done|]. by intros e.
  - eexists. split; [reflexivity|]. split; [done|]. by intros e' [= ->].
  - eexists. split; [reflexivity|]. split; [done|]. by intros e'.
Qed.





Lemma keeps_running_andThen {A B} (m : M F A) onerr (k : A -> M F B) :
  keeps_running m -> (forall e, keeps_running (onerr e)) ->
  (forall a, keeps_running (k a)) -> keeps_running (andThen m onerr k).
Proof.
  intros Hm Herr Hk st r st' Hpol. unfold andThen.
  destruct (m st) as [[a|e|e] st1] eqn:H1;
    destruct (Hm _ _ _ Hpol H1) as [Ht1 Hr1];
    assert (polite st1) as Hpol1 by (unfold polite; by rewrite Ht1).
  - intros [Ht Hr]%Hk; [|done]. split; congruence.
  - intros [Ht Hr]%Herr; [|done]. split; congruence.
  - by intros [= <- <-].
Qed.

Lemma keeps_running_pure {A} (r0 : St F -> Res A) :
  keeps_running (fun st : St F => (r0 st, st)).
Proof. by intros st r st' _ [= <- <-]. Qed.

Lemma keeps_running_quiet {A} (r0 : St F -> Res A) (f : St F -> St F) :
  (forall st, taps (f st) = taps st /\
              running (self (world (f st))) = running (self (world st))) ->
  keeps_running (fun st : St F => (r0 st, f st)).
Proof. intros Hf st r st' _ [= <- <-]. apply Hf. Qed.

Lemma series_quiet (ts : list (Tap F)) arg w :
  Forall quiet ts ->
  running (self (snd (series ts arg w))) = running (self w).
Proof.
  intros Hts. revert w. induction Hts as [|t ts Ht _ IH]; intros w; simpl.
  - done.
  - specialize (Ht arg w). destruct (tap_fn t arg w) as [[v|e] w']; simpl in *.
    + by rewrite IH.
    + done.
Qed.

Lemma bail_quiet (ts : list (Tap F)) arg w :
  Forall quiet ts ->
  running (self (snd (bail ts arg w))) = running (self w).
Proof.
  intros Hts. revert w. induction Hts as [|t ts Ht _ IH]; intros w; simpl.
  - done.
  - specialize (Ht arg w). destruct (tap_fn t arg w) as [[v|e] w']; simpl in *.
    + destruct v; simpl; try done. by rewrite IH.
    + done.
Qed.

Lemma parallel_quiet (ts : list (Tap F)) arg w :
  Forall quiet ts ->
  running (self (snd (parallel ts arg w))) = running (self w).
Proof.
  intros Hts. revert w. induction Hts as [|t ts Ht _ IH]; intros w; simpl.
  - done.
  - specialize (Ht arg w). destruct (tap_fn t arg w) as [o w']; simpl in *.
    specialize (IH w'). destruct (parallel ts arg w') as [r w'']; simpl in *.
    congruence.
Qed.

Lemma hook_taps_quiet name (st : St F) ts :
  polite st -> hook_taps name st = Some ts -> Forall quiet ts.
Proof.
  unfold polite, hook_taps. intros Hpol.
  destruct (hook_of _ _) as [l|]; [|done]. intros Hl.
  by eapply Forall_lookup_1 in Hl.
Qed.

Lemma keeps_running_hook name arg :
  keeps_running (F:=F) (callAsync name arg) /\
  keeps_running (F:=F) (callAsyncParallel name arg) /\
  keeps_running (F:=F) (call name arg) /\
  keeps_running (F:=F) (callBail name arg).
Proof.
  (split; [|split; [|split]]); intros st r st' Hpol;
    unfold callAsync, callAsyncParallel, call, callBail, no_hook, throw;
    (destruct (hook_taps name st) as [ts|] eqn:Hts;
     [|intros [= _ <-]; done]);
    pose proof (hook_taps_quiet _ _ _ Hpol Hts) as Hq.
  - pose proof (series_quiet ts arg (world (log (EvHook name arg) st)) Hq) as H.
    destruct (series _ _ _) as [o w]. by intros [= _ <-].
  - pose proof (parallel_quiet ts arg (world (log (EvHook name arg) st)) Hq) as H.
    destruct (parallel _ _ _) as [o w]. by intros [= _ <-].
  - pose proof (series_quiet ts arg (world (log (EvHook name arg) st)) Hq) as H.
    destruct (series _ _ _) as [o w]. by intros [= _ <-].
  - pose proof (bail_quiet ts arg (world (log (EvHook name arg) st)) Hq) as H.
    destruct (bail _ _ _) as [o w]. by intros [= _ <-].
Qed.

Lemma keeps_running_fs a p d :
  keeps_running (F:=F) (mkdirp a p) /\
  keeps_running (F:=F) (writeFile a p d) /\
  keeps_running (F:=F) (stat a p) /\
  keeps_running (F:=F) (readFile a p).
Proof.
  (split; [|split; [|split]]); intros st r st' _;
    unfold mkdirp, writeFile, stat, readFile.
  - destruct (fs_mkdirp _ _ _) as [o f]. by intros [= _ <-].
  - destruct (fs_writeFile _ _ _ _) as [o f]. by intros [= _ <-].
  - destruct (fs_stat _ _ _) as [o f]. by intros [= _ <-].
  - destruct (fs_readFile _ _ _) as [o f]. by intros [= _ <-].
Qed.

Lemma keeps_running_adapter o : keeps_running (F:=F) (adapter o).
Proof.
  destruct o; [apply (keeps_running_pure (fun _ => Ok _))
              |apply (keeps_running_pure (fun _ => Throws _))].
Qed.

Lemma keeps_running_fail {A} e : keeps_running (@fail F A e).
Proof. apply (keeps_running_pure (fun _ => Fail e)). Qed.

Ltac calm :=
  repeat (intros;
    first
      [ apply keeps_running_andThen
      | apply keeps_running_fail
      | apply keeps_running_adapter
      | apply (proj1 (keeps_running_hook _ _))
      | apply (proj1 (proj2 (keeps_running_hook _ _)))
      | apply (proj1 (proj2 (proj2 (keeps_running_hook _ _))))
      | apply (proj2 (proj2 (proj2 (keeps_running_hook _ _))))
      | apply (proj1 (keeps_running_fs _ _ (Str "")))
      | apply (proj1 (proj2 (keeps_running_fs _ _ _)))
      | apply (proj1 (proj2 (proj2 (keeps_running_fs _ _ (Str "")))))
      | apply (proj2 (proj2 (proj2 (keeps_running_fs _ _ (Str "")))))
      | apply keeps_running_pure
      | apply keeps_running_quiet; by intros ]).

Lemma keeps_running_readRecords : keeps_running (F:=F) readRecords.
Proof.
  unfold readRecords, this, ret, note, alloc, modify. calm. intros c.
  destruct (falsy_path (recordsInputPath c)); calm.
  intros content st r st' _. unfold parse_records. cbv zeta.
  destruct (parseJson _ _) as [e|[v cells]]; by intros [= _ <-].
Qed.

Lemma keeps_running_emitRecords : keeps_running (F:=F) emitRecords.
Proof.
  unfold emitRecords, this, ret, note. calm. intros c.
  destruct (falsy_path (recordsOutputPath c)); calm.
  destruct (falsy_path _); calm; intros ofs st; cbv beta;
    apply (proj1 (proj2 (keeps_running_fs _ _ _))).
Qed.

Lemma keeps_running_forEach {A} (xs : list A) (f : A -> M F unit) :
  (forall x, keeps_running (f x)) -> keeps_running (forEach xs f).
Proof.
  intros Hf. induction xs as [|x xs IH]; simpl.
  - apply (keeps_running_pure (fun _ => Ok tt)).
  - intros st r st' Hpol. destruct (f x st) as [[[]|e|e] st1] eqn:H1;
      destruct (Hf _ _ _ _ Hpol H1) as [Ht1 Hr1];
      assert (polite st1) as Hpol1 by (unfold polite; by rewrite Ht1).
    + intros [Ht Hr]%IH; [|done]. split; congruence.
    + destruct (forEach xs f st1) as [r2 st2] eqn:H2.
      destruct (IH _ _ _ Hpol1 H2) as [Ht2 Hr2]. intros H.
      assert (st' = st2) as -> by (destruct r2; by inversion H).
      split; congruence.
    + by intros [= _ <-].
Qed.

Lemma keeps_running_emitFile ofs out asset :
  keeps_running (F:=F) (emitFile ofs out asset).
Proof.
  destruct asset as [file src]. unfold emitFile.
  assert (forall tf, keeps_running (F:=F) (writeOut ofs out tf src)) as Hw.
  { intros tf st r st' _. unfold writeOut.
    destruct (sources (world st) !! src) as [x|].
    - case_bool_decide.
      + by intros [= _ <-].
      + unfold andThen, update_source, modify, writeFile. simpl.
        destruct (fs_writeFile _ _ _ _) as [o f]. by intros [= _ <-].
    - by intros [= _ <-]. }
  destruct (has_separator _); calm; intros; apply Hw.
Qed.

Lemma keeps_running_emitAssets compilation :
  keeps_running (F:=F) (emitAssets compilation).
Proof.
  unfold emitAssets, this, ret, note. calm.
  - intros st r st' _. unfold assets_of.
    destruct (comps (world st) !! compilation); by intros [= _ <-].
  - apply keeps_running_forEach. intros. apply keeps_running_emitFile.
Qed.

Lemma keeps_running_compile :
  quiet_session -> keeps_running (F:=F) compile.
Proof.
  intros (Hfinish & Hseal & _).
  unfold compile, newCompilationParams, createNormalModuleFactory,
    createContextModuleFactory, newCompilation, createCompilation,
    update_compilation, new_opaque, this, ret, note, modify. calm.
  - intros st r st' _. unfold finish_session. intros [= _ <-]. simpl.
    split; [done|]. apply Hfinish.
  - intros st r st' _. unfold seal_session.
    match goal with
    | |- context [seal ?c ?w] =>
        pose proof (Hseal c w) as H; destruct (seal c w) as [o w']
    end.
    by intros [= _ <-].
Qed.

Lemma same_lock_step {A} (m : M F A) (st0 st : St F) r st' :
  keeps_running m -> polite st0 -> same_lock st0 st ->
  m st = (r, st') -> same_lock st0 st'.
Proof.
  intros Hm Hpol [Ht Hr] H.
  assert (polite st) as Hpol' by (unfold polite; by rewrite Ht).
  destruct (Hm _ _ _ Hpol' H) as [Ht' Hr']. split; congruence.
Qed.

Lemma thenK_throws {A} (m : M F A) onerr (k : A -> K) (st0 st : St F) e st' :
  keeps_running m -> polite st0 -> same_lock st0 st ->
  (forall e0 s, onerr e0 s = (Throws e, st') -> s = st') ->
  thenK m onerr k st = Some (Throws e, st') ->
  same_lock st0 st' \/
  exists a s, same_lock st0 s /\ k a s = Some (Throws e, st').
Proof.
  intros Hm Hpol Hsame Herr H.
  apply thenK_cases in H as [(a & s & H1 & H)|[(e0 & s & H1 & H)|(e0 & s & H1 & H)]];
    pose proof (same_lock_step _ _ _ _ _ Hm Hpol Hsame H1) as Hs.
  - right. eauto.
  - left. symmetry in H. apply Herr in H. by subst.
  - left. by inversion H; subst.
Qed.

Lemma keeps_running_new_Stats c startTime :
  keeps_running (F:=F) (new_Stats c startTime).
Proof. unfold new_Stats, Date_now, ret. calm. Qed.

Lemma keeps_running_needAdditionalPass c :
  quiet_session -> keeps_running (F:=F) (needAdditionalPass_hook c).
Proof.
  intros (_ & _ & Hneed) st r st' _. unfold needAdditionalPass_hook.
  match goal with
  | |- context [needAdditionalPass_call ?c ?w] =>
      pose proof (Hneed c w) as H;
      destruct (needAdditionalPass_call c w) as [v w']
  end.
  by intros [= _ <-].
Qed.

Ltac tstage H Hpol Hsame a s :=
  let Hs := fresh "Hs" in
  eapply thenK_throws in H;
  [ destruct H as [H|(a & s & Hs & H)];
    [exact H|clear Hsame; rename Hs into Hsame]
  | | exact Hpol | exact Hsame
  | by (unfold finalCallback_err, finalCallback, throw; intros ? ? [=]) ].

Lemma done_throws startTime compilation (st0 st : St F) e st' :
  polite st0 -> same_lock st0 st ->
  thenK (new_Stats compilation startTime) throw (fun stats =>
  thenK (callAsync "done" (AStats stats)) finalCallback_err (fun _ =>
  done_ (finalCallback (Ok stats)))) st = Some (Throws e, st') ->
  same_lock st0 st'.
Proof.
  intros Hpol Hsame H.
  tstage H Hpol Hsame stats s1; [|apply keeps_running_new_Stats].
  tstage H Hpol Hsame u s2; [|apply (proj1 (keeps_running_hook _ _))].
  done.
Qed.

Lemma onCompiled_throws fuel startTime r (st0 st : St F) e st' :
  quiet_session -> polite st0 -> same_lock st0 st ->
  onCompiled fuel startTime r st = Some (Throws e, st') ->
  same_lock st0 st'.
Proof.
  intros Hq Hpol. revert r st. induction fuel as [|fuel IH]; intros r st Hsame;
    rewrite onCompiled_unfold;
    (destruct r as [c|e0|e0];
     [|by (unfold onCompiled_step, done_, finalCallback; intros [=])
      |by (unfold onCompiled_step; intros [= _ <-])]);
    unfold onCompiled_step; intros H.
  all: tstage H Hpol Hsame v s1;
    [|apply (proj2 (proj2 (proj2 (keeps_running_hook _ _))))].
  all: case_bool_decide; [by eapply done_throws|].
  all: tstage H Hpol Hsame u s2; [|apply keeps_running_emitAssets].
  all: tstage H Hpol Hsame more s3;
    [|by apply keeps_running_needAdditionalPass].
  all: destruct (truthy more).
  2,4: tstage H Hpol Hsame u' s4; [|apply keeps_running_emitRecords];
    by eapply done_throws.
  all: tstage H Hpol Hsame u' s4;
    [|apply (keeps_running_quiet (fun _ => Ok tt)); by intros].
  all: tstage H Hpol Hsame stats s5; [|apply keeps_running_new_Stats].
  all: tstage H Hpol Hsame u5 s6; [|apply (proj1 (keeps_running_hook _ _))].
  all: tstage H Hpol Hsame u6 s7; [|apply (proj1 (keeps_running_hook _ _))].
  - done.
  - destruct (compile s7) as [r' s8] eqn:Hcomp.
    eapply IH; [|exact H].
    by eapply same_lock_step; [apply keeps_running_compile| | |exact Hcomp].
Qed.

(** X20: when a build ends in an exception (a tap of a synchronous hook
    that throws, a null adapter), the final callback is not reached and
    nothing resets [running].  With taps and session methods that do not
    assign [running] themselves, the compiler is left running and every
    later [run] is refused with the concurrency error. *)
Theorem run_throw_locks (fuel : nat) (st st' : St F) (e : Error) :
  quiet_session -> polite st ->
  running (self (world st)) = false ->
  run fuel st = Some (Throws e, st') ->
  running (self (world st')) = true /\
  taps st' = taps st /\
  forall fuel', run fuel' st' = Some (Fail ConcurrentCompilationError, st').
Proof.
  intros Hq Hpol Hidle. unfold run. rewrite Hidle.
  unfold run_begin, run_stages.
  set (st1 := set_world (set_self (set_running true (self (world st)))
                           (world st)) st).
  assert (polite st1) as Hpol1 by exact Hpol.
  assert (same_lock st1 st1) as Hsame by done.
  intros H.
  assert (same_lock st1 st') as [Ht Hr].
  { tstage H Hpol1 Hsame u s1; [|apply (proj1 (keeps_running_hook _ _))].
    tstage H Hpol1 Hsame u2 s2; [|apply (proj1 (keeps_running_hook _ _))].
    tstage H Hpol1 Hsame u3 s3; [|apply keeps_running_readRecords].
    destruct (compile s3) as [r s4] eqn:Hcomp.
    eapply onCompiled_throws; [exact Hq|exact Hpol1| |exact H].
    by eapply same_lock_step; [apply keeps_running_compile| | |exact Hcomp]. }
  split; [exact Hr|]. split; [exact Ht|].
  intros fuel'. simpl in Hr. by rewrite Hr.
Qed.
End Further.

(** ** At work *)

(** X5 at work: the compile stage of the two-asset compiler. *)
Lemma compile_order_witness :
  exists st' params,
    compile (X:=single_pass) two_asset_state = (Ok 0, st') /\
    trace st' =
      [EvCall "compile";
       EvHook "normalModuleFactory" (AFactory (normalModuleFactory params));
       EvHook "contextModuleFactory" (AFactory (contextModuleFactory params));
       EvHook "beforeCompile" (AParams params);
       EvHook "compile" (AParams params);
       EvNewCompilation 0;
       EvHook "thisCompilation" (ACompilationParams 0 params);
       EvHook "compilation" (ACompilationParams 0 params);
       EvHook "make" (ACompilation 0);
       EvFinish 0;
       EvSeal 0;
       EvHook "afterCompile" (ACompilation 0)].
Proof.
  assert (exists st', compile (X:=single_pass) two_asset_state = (Ok 0, st'))
    as (st' & Hrun).
  { eexists. vm_compute. reflexivity. }
  destruct (compile_order (X:=single_pass) two_asset_state st' 0 Hrun)
    as (params & Htrace).
  exists st', params. split; [exact Hrun|exact Htrace].
Defined.

(** X6 at work: a [make] tap that fails. *)
Lemma compile_failure_witness :
  exists st' pre last,
    compile (X:=single_pass) failing_make_state = (Fail EPIPE, st') /\
    trace st' = trace failing_make_state ++ pre ++ [last].
Proof.
  assert (exists st',
            compile (X:=single_pass) failing_make_state = (Fail EPIPE, st'))
    as (st' & Hrun).
  { eexists. vm_compute. reflexivity. }
  destruct (compile_failure (X:=single_pass) failing_make_state st' EPIPE Hrun)
    as (pre & last & Htrace & _).
  exists st', pre, last. split; [exact Hrun|exact Htrace].
Defined.

(** X7 at work: the emission of the first session of the two-asset
    compiler. *)
Lemma emitAssets_order_witness :
  exists st1 ofs mid,
    emitAssets (X:=two_pass) 0 unvetoed_state = (Ok tt, emitted_state) /\
    outputFileSystem (self (world st1)) = Some ofs /\
    trace emitted_state = trace unvetoed_state ++
      [EvCall "emitAssets"; EvHook "emit" (ACompilation 0);
       EvMkdirp ofs
         (getPath (Collaborators:=two_pass) 0
            (outputPath (self (world st1))) (world st1))] ++
      mid ++ [EvHook "afterEmit" (ACompilation 0)].
Proof.
  assert (emitAssets (X:=two_pass) 0 unvetoed_state = (Ok tt, emitted_state))
    as Hrun by (vm_compute; reflexivity).
  destruct (emitAssets_order (X:=two_pass) 0 unvetoed_state emitted_state Hrun)
    as (st1 & ofs & mid & _ & Hofs & _ & Htrace).
  exists st1, ofs, mid. split; [exact Hrun|]. split; [exact Hofs|exact Htrace].
Defined.

(** X3 at work: a build with one additional pass. *)
Lemma run_reports_witness :
  exists stats st' mid,
    run (X:=two_pass) 1 two_asset_state = Some (Ok stats, st') /\
    Stats.startTime stats = Some (clock (world two_asset_state)) /\
    trace st' = trace two_asset_state ++
      EvHook "beforeRun" ACompiler :: mid ++ [EvHook "done" (AStats stats)] /\
    EvNewCompilation (Stats.compilation stats) ∈ mid.
Proof.
  assert (exists stats st',
            run (X:=two_pass) 1 two_asset_state = Some (Ok stats, st'))
    as (stats & st' & Hrun).
  { eexists _, _. vm_compute. reflexivity. }
  destruct (run_reports (X:=two_pass) 1 two_asset_state st' stats Hrun)
    as (_ & _ & Hstart & _ & mid & Htrace & Hin).
  exists stats, st', mid. split; [exact Hrun|]. split; [exact Hstart|].
  split; [exact Htrace|exact Hin].
Defined.

(** X4 at work: the vetoing compiler, with fuel to spare. *)
Lemma run_single_pass_witness :
  (forall c w,
     truthy (fst (needAdditionalPass_call (Collaborators:=single_pass) c w))
       = false) /\
  exists x,
    run (X:=single_pass) 5 veto_state = Some x /\
    run (X:=single_pass) 0 veto_state = Some x.
Proof.
  assert (forall c w,
            truthy (fst (needAdditionalPass_call (Collaborators:=single_pass)
                           c w)) = false) as Hno.
  { intros c w. reflexivity. }
  split; [exact Hno|].
  exact (run_single_pass (X:=single_pass) 5 veto_state Hno).
Defined.

(** X8 at work: [bundle.js?v=1] is emitted as [bundle.js]. *)
Lemma emitFile_ignores_query_witness :
  indexOf "bundle.js" "?" = (-1)%Z /\
  emitFile (X:=single_pass) 1 "/dist" ("bundle.js?v=1", 0) =
    emitFile (X:=single_pass) 1 "/dist" ("bundle.js", 0).
Proof.
  split; [reflexivity|].
  exact (emitFile_ignores_query (X:=single_pass) 1 "/dist" "bundle.js" "v=1" 0
           eq_refl).
Defined.

(** X9 at work: the write of the asset is refused; emitting it again does
    not try to write it. *)
Lemma emitFile_once_witness :
  sources (world refusing_state) !! 0 = Some one_source /\
  mkdirp (X:=single_pass) 1 "/dist/js" refusing_state
    = (Ok tt, refusing_dirs_state) /\
  emitFile (X:=single_pass) 1 "/dist" ("js/app.js?v=2", 0) refusing_state
    = (Fail EACCES, refused_once_state) /\
  exists st2,
    emitFile (X:=single_pass) 1 "/dist" ("js/app.js?v=2", 0) refused_once_state
      = (Ok tt, st2) /\
    trace st2 = trace refused_once_state ++ [EvMkdirp 1 "/dist/js"] /\
    sources (world st2) !! 0 =
      Some {| source := Str "code"; existsAt := Some "/dist/js/app.js";
              emitted := Some false |}.
Proof.
  assert (mkdirp (X:=single_pass) 1 "/dist/js" refusing_state
          = (Ok tt, refusing_dirs_state)) as Hdir by (vm_compute; reflexivity).
  assert (emitFile (X:=single_pass) 1 "/dist" ("js/app.js?v=2", 0)
            refusing_state = (Fail EACCES, refused_once_state)) as Hfirst
    by (vm_compute; reflexivity).
  assert (exists st2,
            emitFile (X:=single_pass) 1 "/dist" ("js/app.js?v=2", 0)
              refused_once_state = (Ok tt, st2)) as (st2 & Hsecond).
  { eexists. vm_compute. reflexivity. }
  split; [reflexivity|]. split; [exact Hdir|]. split; [exact Hfirst|].
  destruct (emitFile_once (X:=single_pass) 1 "/dist" "js/app.js?v=2" 0
              one_source refusing_state refusing_dirs_state refused_once_state
              st2 (Fail EACCES) (Ok tt) eq_refl Hdir Hfirst Hsecond)
    as (Htrace & _ & Hsrc).
  exists st2. split; [exact Hsecond|]. split; [exact Htrace|].
  exact (Hsrc eq_refl).
Defined.

(** X11 at work: a records file holding an empty object. *)
Lemma readRecords_reads_witness :
  recordsInputPath (self (world readable_state))
    = Some "/project/records.json" /\
  inputFileSystem (self (world readable_state)) = Some 0 /\
  fs_stat (Collaborators:=single_pass) 0 "/project/records.json"
    (fs (world readable_state)) = (None, fs (world readable_state)) /\
  exists r st',
    readRecords (X:=single_pass) readable_state = (r, st') /\
    trace st' = trace readable_state ++
      [EvCall "readRecords"; EvStat 0 "/project/records.json";
       EvReadFile 0 "/project/records.json"].
Proof.
  assert (fs_stat (Collaborators:=single_pass) 0 "/project/records.json"
            (fs (world readable_state)) = (None, fs (world readable_state)))
    as Hstat by (vm_compute; reflexivity).
  split; [reflexivity|]. split; [reflexivity|]. split; [exact Hstat|].
  destruct (readRecords_reads (X:=single_pass) readable_state
              "/project/records.json" 0 (fs (world readable_state))
              eq_refl ltac:(discriminate) eq_refl Hstat)
    as (r & st' & Hrun & Htrace & _).
  exists r, st'. split; [exact Hrun|exact Htrace].
Defined.




(** X16 at work: [runAsChild] on a compiler that is no child. *)
Lemma runAsChild_stops_witness :
  exists st1 r',
    compile (X:=single_pass) two_asset_state = (Ok 0, st1) /\
    parentCompilation (self (world st1)) = None /\
    runAsChild (X:=single_pass) (Y:=mem_periphery) ∅ two_asset_state
      = (r', st1) /\
    forall x, r' <> Ok x.
Proof.
  assert (exists st1, compile (X:=single_pass) two_asset_state = (Ok 0, st1))
    as (st1 & Hrun).
  { eexists. vm_compute. reflexivity. }
  assert (parentCompilation (self (world st1)) = None) as Hroot.
  { pose proof (f_equal (fun p => parentCompilation (self (world (snd p))))
                  Hrun) as Hp.
    cbn [snd] in Hp. rewrite <- Hp. vm_compute. reflexivity. }
  destruct (runAsChild_stops (X:=single_pass) (Y:=mem_periphery) ∅
              two_asset_state st1 (Ok 0) Hrun (fun _ _ => Hroot))
    as (r' & Hstop & Hnot & _).
  exists st1, r'. split; [exact Hrun|]. split; [exact Hroot|].
  split; [exact Hstop|exact Hnot].
Defined.

(** X15 at work: the child's two assets join [main.js] of the parent
    session. *)
Lemma runAsChild_merges_witness :
  exists kp kc assets entries kids st',
    compile (X:=single_pass) child_state = (Ok 1, child_compiled_state) /\
    parentCompilation (self (world child_compiled_state)) = Some 0 /\
    comps (world child_compiled_state) !! 0 = Some kp /\
    comps (world child_compiled_state) !! 1 = Some kc /\
    runAsChild (X:=single_pass) (Y:=mem_periphery) ∅ child_state
      = (Ok (entries, 1, kids), st') /\
    kids !! 0 = Some [1] /\
    asset "main.js" assets = Some 0 /\
    asset "js/a.js" assets = Some 2.
Proof.
  assert (compile (X:=single_pass) child_state = (Ok 1, child_compiled_state))
    as Hrun by (vm_compute; reflexivity).
  pose (kp := Compilation.mk [("main.js", 0)] false None None None
                VUndefined None).
  pose (kc := default new_Compilation
                (comps (world child_compiled_state) !! 1)).
  assert (comps (world child_compiled_state) !! 0 = Some kp) as Hp
    by (vm_compute; reflexivity).
  assert (comps (world child_compiled_state) !! 1 = Some kc) as Hc
    by (vm_compute; reflexivity).
  assert (asset "main.js" (Compilation.assets kc) = None) as Hk1
    by (vm_compute; reflexivity).
  assert (asset "js/a.js" (Compilation.assets kc) = Some 2) as Hk2
    by (vm_compute; reflexivity).
  destruct (runAsChild_merges (X:=single_pass) (Y:=mem_periphery) ∅
              child_state child_compiled_state 1 0 kp kc Hrun eq_refl Hp Hc
              ltac:(discriminate))
    as (assets & Hmerge & Hall).
  exists kp, kc, assets. eexists _, _, _.
  split; [exact Hrun|]. split; [reflexivity|]. split; [exact Hp|].
  split; [exact Hc|]. split; [exact Hmerge|].
  split; [apply lookup_insert_eq|].
  split.
  - rewrite Hall, Hk1. reflexivity.
  - rewrite Hall, Hk2. reflexivity.
Defined.



(** X20 at work: a [compile] tap that throws. *)
Lemma run_throw_locks_witness :
  quiet_session (X:=single_pass) /\
  polite throwing_state /\
  running (self (world throwing_state)) = false /\
  exists st',
    run (X:=single_pass) 0 throwing_state = Some (Throws EPIPE, st') /\
    running (self (world st')) = true /\
    run (X:=single_pass) 0 st' = Some (Fail ConcurrentCompilationError, st').
Proof.
  assert (quiet_session (X:=single_pass)) as Hq.
  { repeat split; intros; reflexivity. }
  assert (polite throwing_state) as Hpol.
  { unfold polite. vm_compute.
    repeat (constructor; try (intros; reflexivity)). }
  assert (exists st',
            run (X:=single_pass) 0 throwing_state = Some (Throws EPIPE, st'))
    as (st' & Hrun).
  { eexists. vm_compute. reflexivity. }
  split; [exact Hq|]. split; [exact Hpol|]. split; [reflexivity|].
  destruct (run_throw_locks (X:=single_pass) 0 throwing_state st' EPIPE
              Hq Hpol eq_refl Hrun) as (Hlock & _ & Hrefused).
  exists st'. split; [exact Hrun|]. split; [exact Hlock|exact (Hrefused 0)].
Defined.
